(** * ashaw-notes: the Redis note connector

    A shallow embedding of [ashaw_notes/connectors/redis_notes.py] and the
    properties of its inverted index: tokenisation of a note, maintenance of
    the postings sets on save / delete / update, and the resolution of a
    search request by set algebra.

    Conventions of the embedding.
    - Python [str] and the [bytes] that the Redis client hands back are both
      [string]; UTF-8 [encode] / [decode] is the identity.  Note texts are
      7-bit ASCII: on ASCII the definitions of [\w] and [str.lower] below
      agree with Python's Unicode-aware ones.
    - Timestamps are integers ([Z]).  ["%s" % n] and [int(s)] are the decimal
      printer and parser of the standard library.  [time.gmtime] is the one
      of a 64-bit platform with glibc: it raises outside the range of years
      that fit the C field [tm_year].
    - The Redis server is a finite map from keys to values, a value being a
      string or a set of byte strings; a command applied to a key holding the
      other kind of value is answered with WRONGTYPE, which the client raises
      as an exception.  Exceptions are explicit results. *)

From Stdlib Require Import ZArith Ascii String DecimalString DecimalZ.
From stdpp Require Import base option list sorting gmap sets strings.

Local Open Scope Z_scope.
Local Set Warnings "-clear-no-such-hyp".

(** ** Characters and regular expressions *)

Module Char.

Definition code (c : ascii) : N := N_of_ascii c.

(** A character range [lo-hi] of a regular-expression character class. *)
Definition in_range (lo hi c : ascii) : bool :=
  ((code lo <=? code c) && (code c <=? code hi))%N.

Definition eqb (a b : ascii) : bool := Ascii.eqb a b.

(** [\w] on ASCII: letters, digits and the underscore. *)
Definition is_word (c : ascii) : bool :=
  in_range "a" "z" c || in_range "A" "Z" c || in_range "0" "9" c || eqb c "_".

(** The class [[A-z0-9-_]] of the hashtag pattern: the range from "A"
    to "z", the range from "0" to "9", a literal hyphen, a literal
    underscore. *)
Definition is_tag (c : ascii) : bool :=
  in_range "A" "z" c || in_range "0" "9" c || eqb c "-" || eqb c "_".

Definition is_alnum (c : ascii) : bool :=
  in_range "a" "z" c || in_range "A" "Z" c || in_range "0" "9" c.

Definition is_upper (c : ascii) : bool := in_range "A" "Z" c.

(** [str.lower] on one ASCII character. *)
Definition lower (c : ascii) : ascii :=
  if is_upper c then ascii_of_N (code c + 32) else c.

End Char.

Arguments Char.eqb : simpl never.
Arguments Char.in_range : simpl never.

(** [str.lower()] *)
Fixpoint lower (s : string) : string :=
  match s with
  | EmptyString => EmptyString
  | String c s' => String (Char.lower c) (lower s')
  end.

(** Appending one character to the run being matched. *)
Definition snoc (run : string) (c : ascii) : string :=
  run +:+ String c EmptyString.

Definition flush_word (run : string) : list string :=
  match run with
  | EmptyString => []
  | _ => [run]
  end.

(** [re.findall(r'(\w+)', line)]: the maximal runs of word characters, from
    left to right.  [run] is the run matched so far. *)
Fixpoint findall_word_from (run line : string) : list string :=
  match line with
  | EmptyString => flush_word run
  | String c rest =>
      if Char.is_word c then findall_word_from (snoc run c) rest
      else flush_word run ++ findall_word_from EmptyString rest
  end.

Definition findall_word (line : string) : list string :=
  findall_word_from EmptyString line.

(** A hashtag match needs at least one class character after the "#". *)
Definition flush_tag (st : option string) : list string :=
  match st with
  | Some (String c run) => [String "#" (String c run)]
  | _ => []
  end.

Definition tag_start (c : ascii) : option string :=
  if Char.eqb c "#" then Some EmptyString else None.

(** [re.findall(r'(#[A-z0-9-_]+)', line)].  [st] is [None] outside a
    match and [Some run] after a "#" followed by the class characters
    [run]; "#" is not in the class, so it always ends a match and may
    start the next one. *)
Fixpoint findall_tag_from (st : option string) (line : string) : list string :=
  match line with
  | EmptyString => flush_tag st
  | String c rest =>
      match st with
      | Some run =>
          if Char.is_tag c then findall_tag_from (Some (snoc run c)) rest
          else flush_tag st ++ findall_tag_from (tag_start c) rest
      | None => findall_tag_from (tag_start c) rest
      end
  end.

Definition findall_tag (line : string) : list string :=
  findall_tag_from None line.

(** ** Integers as text *)

(** ["%s" % n] for an integer [n]. *)
Definition str (n : Z) : string := NilZero.string_of_int (Z.to_int n).

(** [int(s)] on the decimal strings the connector writes; [None] is
    [ValueError]. *)
Definition int (s : string) : option Z :=
  Z.of_int <$> NilZero.int_of_string s.

(** ** Exceptions *)

(** The exceptions the connector can meet: a command on a key of the wrong
    kind, [int] of a malformed string, [.decode] of [None], and the two
    errors of [time.gmtime]. *)
Inductive exn :=
  | WRONGTYPE
  | ValueError
  | AttributeError
  | OverflowError
  | OSError.

(** ** [time.gmtime] *)

Record struct_time := {
  tm_year : Z;
  tm_mon : Z;
  tm_mday : Z;
  tm_hour : Z;
  tm_wday : Z
}.

(** The proleptic Gregorian date of a day number counted from 1970-01-01
    (eras of 400 years starting on 1 March). *)
Definition civil_from_days (days : Z) : Z * Z * Z :=
  let z := days + 719468 in
  let era := z / 146097 in
  let doe := z - era * 146097 in
  let yoe := (doe - doe / 1460 + doe / 36524 - doe / 146096) / 365 in
  let doy := doe - (365 * yoe + yoe / 4 - yoe / 100) in
  let mp := (5 * doy + 2) / 153 in
  let d := doy - (153 * mp + 2) / 5 + 1 in
  let m := if mp <? 10 then mp + 3 else mp - 9 in
  let y := yoe + era * 400 + (if m <=? 2 then 1 else 0) in
  (y, m, d).

(** The calendar fields of a timestamp that the connector reads; Monday is
    weekday 0 and 1970-01-01 was a Thursday. *)
Definition calendar (timestamp : Z) : struct_time :=
  let days := timestamp / 86400 in
  let secs := timestamp mod 86400 in
  let '(y, m, d) := civil_from_days days in
  {| tm_year := y; tm_mon := m; tm_mday := d;
     tm_hour := secs / 3600;
     tm_wday := (days + 3) mod 7 |}.

(** A signed integer of [bits] bits. *)
Definition fits (bits : Z) (n : Z) : bool :=
  (- 2 ^ (bits - 1) <=? n) && (n <? 2 ^ (bits - 1)).

(** [time.gmtime(timestamp)]: [OverflowError] when the timestamp does not
    fit the 64-bit [time_t], [OSError] when the C library cannot hold the
    year, counted from 1900, in the [int] field [tm_year]. *)
Definition gmtime (timestamp : Z) : exn + struct_time :=
  if negb (fits 64 timestamp) then inl OverflowError
  else
    let note_time := calendar timestamp in
    if negb (fits 32 (tm_year note_time - 1900)) then inl OSError
    else inr note_time.

(** The timestamps [time.gmtime] accepts. *)
Definition in_gmtime_range (timestamp : Z) : Prop :=
  ∃ note_time, gmtime timestamp = inr note_time.

(** ** Key names and the tokenizer *)

Definition get_note_key (timestamp : string) : string :=
  "note_" +:+ timestamp.

Definition get_word_key (word : string) : string :=
  "w_" +:+ lower word.

(** One iteration of the two loops of [get_note_tokens]. *)
Definition add_token (tokens : list string) (part : string) : list string :=
  let token := get_word_key (lower part) in
  if bool_decide (token ∈ tokens) then tokens
  else tokens ++ [get_word_key (lower part)].

(** [get_note_tokens] raises what [time.gmtime] raises. *)
Definition get_note_tokens (timestamp : Z) (line : string)
    : exn + list string :=
  let tokens := [] in
  let tokens := foldl add_token tokens (findall_word line) in
  let tokens := foldl add_token tokens (findall_tag line) in
  match gmtime timestamp with
  | inl e => inl e
  | inr note_time =>
      inr (tokens ++
           [ "year_" +:+ str (tm_year note_time);
             "month_" +:+ str (tm_mon note_time);
             "day_" +:+ str (tm_mday note_time);
             "hour_" +:+ str (tm_hour note_time);
             "weekday_" +:+ str (tm_wday note_time) ])
  end.

(** [t ∈ get_note_tokens timestamp line]: tokenizing returns, and [t] is
    one of the tokens. *)
Global Instance elem_of_tokens : ElemOf string (exn + list string) :=
  λ t r, match r with
         | inr tokens => t ∈ tokens
         | inl _ => False
         end.

Global Instance elem_of_tokens_dec (t : string) (r : exn + list string) :
  Decision (t ∈ r) :=
  match r with
  | inr tokens => decide (t ∈ tokens)
  | inl _ => right (λ H : False, H)
  end.

(** The five temporal tokens of a timestamp; none where [time.gmtime]
    raises. *)
Definition temporal_tokens (timestamp : Z) : list string :=
  match gmtime timestamp with
  | inl _ => []
  | inr note_time =>
      [ "year_" +:+ str (tm_year note_time);
        "month_" +:+ str (tm_mon note_time);
        "day_" +:+ str (tm_mday note_time);
        "hour_" +:+ str (tm_hour note_time);
        "weekday_" +:+ str (tm_wday note_time) ]
  end.

(** ** The Redis server *)

Inductive value :=
  | VString (s : string)
  | VSet (members : gset string).

Abbreviation redis := (gmap string value).

Inductive result (A : Type) :=
  | Ok (a : A) (db : redis)
  | Raise (e : exn).
Arguments Ok {A} a db.
Arguments Raise {A} e.

(** Computations against the shared connection: the state is the content
    of the server. *)
Definition M (A : Type) : Type := redis → result A.

Global Instance M_ret : MRet M := λ A a db, Ok a db.
Global Instance M_bind : MBind M := λ A B f m db,
  match m db with
  | Ok a db' => f a db'
  | Raise e => Raise e
  end.

Definition raise {A} (e : exn) : M A := λ _, Raise e.

(** A call that does not touch the store: its value, or its exception. *)
Definition lift {A} (r : exn + A) : M A :=
  match r with
  | inr a => mret a
  | inl e => raise e
  end.

(** [for x in l: body(x)] *)
Fixpoint for_each {A} (l : list A) (body : A → M unit) : M unit :=
  match l with
  | [] => mret tt
  | x :: l' => _ ← body x; for_each l' body
  end.

(** [[f(x) for x in l]] where [f] may raise. *)
Fixpoint for_list {A B} (l : list A) (f : A → M B) : M (list B) :=
  match l with
  | [] => mret []
  | x :: l' => y ← f x; ys ← for_list l' f; mret (y :: ys)
  end.

(** [s[n:]] *)
Fixpoint slice_from (n : nat) (s : string) : string :=
  match n, s with
  | O, _ => s
  | S n', String _ s' => slice_from n' s'
  | S _, EmptyString => EmptyString
  end.

(** Glob patterns of the KEYS command; the connector's patterns are a
    literal prefix followed by a star. *)
Fixpoint glob_match (pattern s : string) : bool :=
  match pattern with
  | EmptyString => match s with EmptyString => true | _ => false end
  | String p pattern' =>
      if Char.eqb p "*" then
        (fix star (s : string) : bool :=
           glob_match pattern' s
           || match s with
              | EmptyString => false
              | String _ s' => star s'
              end) s
      else
        match s with
        | EmptyString => false
        | String c s' =>
            (Char.eqb p "?" || Char.eqb p c) && glob_match pattern' s'
        end
  end.

(** A pattern without metacharacters. *)
Fixpoint literal (p : string) : bool :=
  match p with
  | EmptyString => true
  | String c p' => negb (Char.eqb c "*") && negb (Char.eqb c "?") && literal p'
  end.

Module Redis.

(** The members of the set at [key]; a missing key is the empty set and
    a string value is a type error. *)
Definition members (db : redis) (key : string) : option (gset string) :=
  match db !! key with
  | None => Some ∅
  | Some (VSet s) => Some s
  | Some (VString _) => None
  end.

Definition sadd (key member : string) : M unit := λ db,
  match members db key with
  | Some s => Ok tt (<[key := VSet ({[member]} ∪ s)]> db)
  | None => Raise WRONGTYPE
  end.

(** A set that becomes empty is removed with its key. *)
Definition srem (key member : string) : M unit := λ db,
  match db !! key with
  | None => Ok tt db
  | Some (VSet s) =>
      let s' := s ∖ {[member]} in
      Ok tt (if decide (s' = ∅) then base.delete key db
             else <[key := VSet s']> db)
  | Some (VString _) => Raise WRONGTYPE
  end.

Definition set (key val : string) : M unit := λ db,
  Ok tt (<[key := VString val]> db).

Definition get (key : string) : M (option string) := λ db,
  match db !! key with
  | None => Ok None db
  | Some (VString v) => Ok (Some v) db
  | Some (VSet _) => Raise WRONGTYPE
  end.

Definition exists_ (key : string) : M bool := λ db,
  Ok (bool_decide (is_Some (db !! key))) db.

Definition delete (key : string) : M unit := λ db,
  Ok tt (base.delete key db).

Definition keys (pattern : string) : M (list string) := λ db,
  Ok (filter (λ key, glob_match pattern key) (elements (dom db))) db.

Fixpoint all_members (db : redis) (keys : list string)
  : option (list (gset string)) :=
  match keys with
  | [] => Some []
  | key :: keys' =>
      match members db key, all_members db keys' with
      | Some s, Some ss => Some (s :: ss)
      | _, _ => None
      end
  end.

(** SINTER and SUNION are only ever issued with at least one key. *)
Definition sinter (keys : list string) : M (gset string) := λ db,
  match all_members db keys with
  | Some (s :: ss) => Ok (foldl (∩) s ss) db
  | Some [] => Ok ∅ db
  | None => Raise WRONGTYPE
  end.

Definition sunion (keys : list string) : M (gset string) := λ db,
  match all_members db keys with
  | Some ss => Ok (foldl (∪) ∅ ss) db
  | None => Raise WRONGTYPE
  end.

(** MGET answers nil for a key that is missing or not a string. *)
Definition mget (keys : list string) : M (list (option string)) := λ db,
  Ok ((λ key, match db !! key with
              | Some (VString v) => Some v
              | _ => None
              end) <$> keys) db.

End Redis.

(** ** The connector *)

Record search_request := {
  inclusion_terms : list string;
  exclusion_terms : list string
}.

(** [x.decode('utf-8')] where [x] may be [None]. *)
Definition decode (x : option string) : M string :=
  match x with
  | Some s => mret s
  | None => raise AttributeError
  end.

(** [int(x.decode('utf-8'))] *)
Definition int_decode (x : string) : M Z :=
  match int x with
  | Some n => mret n
  | None => raise ValueError
  end.

Definition add_redis_note (timestamp : Z) (note : string) : M unit :=
  tokens ← lift (get_note_tokens timestamp note);
  _ ← for_each tokens (λ token, Redis.sadd token (str timestamp));
  Redis.set (get_note_key (str timestamp)) note.

Definition delete_redis_note (timestamp : Z) : M unit :=
  present ← Redis.exists_ (get_note_key (str timestamp));
  if negb present then mret tt
  else
    reply ← Redis.get (get_note_key (str timestamp));
    line ← decode reply;
    tokens ← lift (get_note_tokens timestamp line);
    _ ← for_each tokens (λ token, Redis.srem token (str timestamp));
    Redis.delete (get_note_key (str timestamp)).

Definition save_note (timestamp : Z) (note : string) : M unit :=
  add_redis_note timestamp note.

Definition delete_note (timestamp : Z) : M unit :=
  delete_redis_note timestamp.

Definition update_note (original_timestamp new_timestamp : Z)
    (new_note : string) : M unit :=
  _ ← delete_note original_timestamp;
  save_note new_timestamp new_note.

Definition get_common_words : M (gset string) :=
  words ← Redis.keys (get_word_key "*");
  mret (list_to_set (slice_from 2 <$> words)).

(** The notes found: pairs of a timestamp and a text, or the pair
    [(None, None)]. *)
Definition found := (option Z * option string)%type.

(** The three branches leave in [timestamps] a set, a set or a list; in each
    case the comprehension that follows iterates over it. *)
Definition find_redis_notes (search_request : search_request)
    : M (list found) :=
  timestamps ←
    (if bool_decide (inclusion_terms search_request ≠ []) then
       timestamps ← Redis.sinter
         (get_word_key <$> inclusion_terms search_request);
       if bool_decide (exclusion_terms search_request ≠ []) then
         excluded ← Redis.sunion
           (get_word_key <$> exclusion_terms search_request);
         mret (elements (timestamps ∖ excluded))
       else mret (elements timestamps)
     else if bool_decide (exclusion_terms search_request ≠ []) then
       keys ← Redis.keys (get_note_key "*");
       let timestamps : gset string :=
         list_to_set
           (slice_from (String.length (get_note_key "")) <$>
              elements (list_to_set keys : gset string)) in
       exclusion_timestamps ← Redis.sunion
         (get_word_key <$> exclusion_terms search_request);
       mret (elements (timestamps ∖ exclusion_timestamps))
     else
       keys ← Redis.keys (get_note_key "*");
       mret (slice_from (String.length (get_note_key "")) <$>
               elements (list_to_set keys : gset string)));
  timestamps ← for_list timestamps int_decode;
  let timestamps := merge_sort Z.le timestamps in
  if bool_decide (timestamps = []) then mret [(None, None)]
  else
    notes ← Redis.mget ((λ timestamp, get_note_key (str timestamp)) <$> timestamps);
    notes ← for_list notes decode;
    mret (zip (Some <$> timestamps) (Some <$> notes)).

(** A call of the connector's interface. *)
Inductive call :=
  | Save (timestamp : Z) (note : string)
  | Delete (timestamp : Z)
  | Update (original_timestamp new_timestamp : Z) (new_note : string).

Definition run_call (c : call) : M unit :=
  match c with
  | Save timestamp note => save_note timestamp note
  | Delete timestamp => delete_note timestamp
  | Update original new note => update_note original new note
  end.

Definition run_calls (calls : list call) : M unit := for_each calls run_call.

(** The store reached from the empty one by a sequence of calls (the
    empty store if a call raises). *)
Definition after (calls : list call) : redis :=
  match run_calls calls ∅ with
  | Ok _ db => db
  | Raise _ => ∅
  end.

(** The three notes of the search scenarios. *)
Definition scenario : list call :=
  [ Save 100 "buy milk #errand";
    Save 200 "write code";
    Save 300 "buy bread #errand" ].

(** ** The index, as the specification speaks of it *)

(** The postings set of a token: the members of the set stored under it. *)
Definition postings (db : redis) (token : string) : gset string :=
  match db !! token with
  | Some (VSet s) => s
  | _ => ∅
  end.

(** The text of the note stored at a timestamp. *)
Definition stored_note (db : redis) (timestamp : Z) : option string :=
  match db !! get_note_key (str timestamp) with
  | Some (VString text) => Some text
  | _ => None
  end.

Definition is_string (v : option value) : bool :=
  match v with
  | Some (VString _) => true
  | _ => false
  end.

(** The shape of every store the connector builds: strings live under the
    note keys of timestamps that [time.gmtime] accepts, sets live
    elsewhere, and the members of sets are timestamps. *)
Record store_wf (db : redis) : Prop := {
  wf_strings : ∀ k v, db !! k = Some (VString v) →
    ∃ ts : Z, k = get_note_key (str ts) ∧ in_gmtime_range ts;
  wf_sets : ∀ k s, db !! k = Some (VSet s) →
    glob_match (get_note_key "*") k = false;
  wf_members : ∀ k s m, db !! k = Some (VSet s) → m ∈ s →
    ∃ ts : Z, m = str ts
}.

(** A timestamp is in a token's postings iff the note stored at that
    timestamp tokenizes to include the token. *)
Definition index_invariant (db : redis) : Prop :=
  ∀ (t : string) (ts : Z),
    str ts ∈ postings db t ↔
    ∃ text, stored_note db ts = Some text ∧ t ∈ get_note_tokens ts text.

(** Every posting refers to a stored note. *)
Definition no_dangling (db : redis) : Prop :=
  ∀ (t : string) (ts : Z),
    str ts ∈ postings db t → is_Some (stored_note db ts).

Definition consistent (db : redis) : Prop :=
  store_wf db ∧ index_invariant db.

(** What one SADD and one SREM do to the value under their key. *)
Definition sadd_value (member : string) (v : option value) : option value :=
  Some (VSet ({[member]} ∪ match v with Some (VSet s) => s | _ => ∅ end)).

Definition srem_value (member : string) (v : option value) : option value :=
  match v with
  | Some (VSet s) =>
      if decide (s ∖ {[member]} = ∅) then None else Some (VSet (s ∖ {[member]}))
  | _ => v
  end.

(** A call that does not save over a note that is stored at the time of the
    save: [update] saves after deleting the original timestamp. *)
Definition saves_fresh (c : call) (db : redis) : bool :=
  match c with
  | Save ts _ => bool_decide (stored_note db ts = None)
  | Delete _ => true
  | Update original new _ =>
      bool_decide (original = new) || bool_decide (stored_note db new = None)
  end.

(** Every call of the sequence is such a call in the store it is issued
    in; the calls that follow one that raises are not issued. *)
Fixpoint disciplined (calls : list call) (db : redis) : bool :=
  match calls with
  | [] => true
  | c :: calls' =>
      saves_fresh c db &&
      match run_call c db with
      | Ok _ db' => disciplined calls' db'
      | Raise _ => true
      end
  end.

(** The timestamp a call saves at is one [time.gmtime] accepts. *)
Definition call_in_range (c : call) : Prop :=
  match c with
  | Save ts _ => in_gmtime_range ts
  | Delete _ => True
  | Update _ new _ => in_gmtime_range new
  end.


(** Ordered-unique: every element once, at its first occurrence. *)
Fixpoint ordered_unique (l : list string) : list string :=
  match l with
  | [] => []
  | x :: l' => x :: filter (λ y, y ≠ x) (ordered_unique l')
  end.

Definition word_tokens (line : string) : list string :=
  (λ part, get_word_key (lower part)) <$> findall_word line.

Definition tag_tokens (line : string) : list string :=
  (λ part, get_word_key (lower part)) <$> findall_tag line.

(** A match that starts with a word character. *)
Definition word_headed (s : string) : bool :=
  match s with
  | EmptyString => false
  | String c _ => Char.is_word c
  end.

(** A word or hashtag occurring in a text. *)
Definition occurs_in (w line : string) : Prop :=
  w ∈ findall_word line ∨ w ∈ findall_tag line.

(** *** Search resolution in the words of the specification *)

Definition intersect_postings (db : redis) (tokens : list string) : gset string :=
  match tokens with
  | [] => ∅
  | t :: rest =>
      filter (λ m, Forall (λ t', m ∈ postings db t') rest) (postings db t)
  end.

Definition union_postings (db : redis) (tokens : list string) : gset string :=
  ⋃ (postings db <$> tokens).

Fixpoint has_prefix (p s : string) : bool :=
  match p, s with
  | EmptyString, _ => true
  | String a p', String b s' => Char.eqb a b && has_prefix p' s'
  | String _ _, EmptyString => false
  end.

(** All existing note timestamps: the note-value keys with their prefix
    stripped. *)
Definition all_note_timestamps (db : redis) : gset string :=
  set_map (slice_from 5)
    (filter (λ key, has_prefix "note_" key) (dom db)).

Definition resolve (db : redis) (request : search_request) : gset string :=
  let inclusion := get_word_key <$> inclusion_terms request in
  let exclusion := get_word_key <$> exclusion_terms request in
  match inclusion, exclusion with
  | _ :: _, _ :: _ => intersect_postings db inclusion ∖ union_postings db exclusion
  | _ :: _, [] => intersect_postings db inclusion
  | [], _ :: _ => all_note_timestamps db ∖ union_postings db exclusion
  | [], [] => all_note_timestamps db
  end.

(** Every resolved timestamp has a note to fetch. *)
Definition fetchable (db : redis) (request : search_request) : Prop :=
  ∀ ts : Z, str ts ∈ resolve db request → is_Some (stored_note db ts).

(** The resolved set converted to integers and sorted ascending. *)
Definition sorted_timestamps (db : redis) (request : search_request) : list Z :=
  merge_sort Z.le (omap int (elements (resolve db request))).

(** The sorted timestamps zipped positionally with the texts fetched for
    them; the pair [(None, None)] stands for an empty result. *)
Definition resolved_notes (db : redis) (request : search_request) : list found :=
  let timestamps := sorted_timestamps db request in
  match timestamps with
  | [] => [(None, None)]
  | _ => zip (Some <$> timestamps) (stored_note db <$> timestamps)
  end.


(** ** Further notions *)

(** No key holds an empty set: Redis removes a set with its last member. *)
Definition no_empty_sets (db : redis) : Prop :=
  ∀ k, db !! k ≠ Some (VSet ∅).

(** Every token of every stored note has the note's timestamp in its
    postings. *)
Definition index_complete (db : redis) : Prop :=
  ∀ (ts : Z) (text t : string),
    stored_note db ts = Some text → t ∈ get_note_tokens ts text →
    str ts ∈ postings db t.

(** What every call keeps, whatever the calls before it. *)
Definition sound_store (db : redis) : Prop :=
  store_wf db ∧ no_empty_sets db ∧ index_complete db.

(** A computation that leaves the store as it found it. *)
Definition read_only {A} (m : M A) : Prop :=
  ∀ db a db', m db = Ok a db' → db' = db.

Fixpoint all_chars (p : ascii → bool) (s : string) : bool :=
  match s with
  | EmptyString => true
  | String c s' => p c && all_chars p s'
  end.

(** A text of 7-bit characters. *)
Definition ascii_text (s : string) : bool :=
  all_chars (λ c, (Char.code c <? 128)%N) s.

(** *** The Gregorian calendar *)

(** A leap year: every fourth year, but of the centuries every fourth only. *)
Definition is_leap (year : Z) : bool :=
  (year mod 4 =? 0) && (negb (year mod 100 =? 0) || (year mod 400 =? 0)).

(** The length of a month. *)
Definition days_in_month (year month : Z) : Z :=
  if month =? 2 then (if is_leap year then 29 else 28)
  else if (month =? 4) || (month =? 6) || (month =? 9) || (month =? 11) then 30
  else 31.

(** The leap years from year 1 to [year]. *)
Definition leap_years (year : Z) : Z := year / 4 - year / 100 + year / 400.

(** The days from 1 January 1970 to the given date. *)
Definition days_from_epoch (year month day : Z) : Z :=
  365 * (year - 1970) + (leap_years (year - 1) - leap_years 1969)
  + foldr Z.add 0 (days_in_month year <$> seqZ 1 (month - 1))
  + (day - 1).

(** [note_time] holds the calendar fields of the hour that contains
    [timestamp], in UTC: the date is a date of the Gregorian calendar, and
    Monday is weekday 0, 1 January 1970 having been a Thursday. *)
Definition utc_fields (timestamp : Z) (note_time : struct_time) : Prop :=
  1 ≤ tm_mon note_time ≤ 12
  ∧ 1 ≤ tm_mday note_time ≤ days_in_month (tm_year note_time) (tm_mon note_time)
  ∧ 0 ≤ tm_hour note_time ≤ 23
  ∧ 0 ≤ tm_wday note_time ≤ 6
  ∧ (let days := days_from_epoch (tm_year note_time) (tm_mon note_time)
                   (tm_mday note_time) in
     (days * 24 + tm_hour note_time) * 3600 ≤ timestamp
       < (days * 24 + tm_hour note_time + 1) * 3600
     ∧ tm_wday note_time = (days + 3) mod 7).

(** The date computed for a day number is a date of the calendar, and it is
    that day. *)
Definition date_ok (days : Z) : bool :=
  let '(y, m, d) := civil_from_days days in
  (1 <=? m) && (m <=? 12) && (1 <=? d) && (d <=? days_in_month y m)
  && (days_from_epoch y m d =? days).

(** Every day of a run of [n] days from [day] on passes the check. *)
Fixpoint all_days (n : nat) (day : Z) : bool :=
  match n with
  | O => true
  | S n' => date_ok day && all_days n' (day + 1)
  end.

(** ** The shared connection *)

Module Connection.

(** What [load_config()] returns, read through [config.get(section, option)]. *)
Definition config := string → string → string.

Definition CONFIG_SECTION : string := "redis_notes".

(** The client object [redis.StrictRedis(host=, port=, db=, password=)]. *)
Record StrictRedis := {
  host : string;
  port : string;
  db : string;
  password : string
}.

(** [get_redis_connection()]: the module global [__redis__] is threaded
    through; a client object is always truthy. *)
Definition get_redis_connection (config : config)
    (__redis__ : option StrictRedis) : StrictRedis * option StrictRedis :=
  match __redis__ with
  | Some r => (r, Some r)
  | None =>
      let r := {| host := config CONFIG_SECTION "endpoint";
                  port := config CONFIG_SECTION "port";
                  db := config CONFIG_SECTION "db";
                  password := config CONFIG_SECTION "password" |} in
      (r, Some r)
  end.

(** The connections handed out by successive calls, each made under the
    configuration in force at the time. *)
Fixpoint connections (configs : list config) (__redis__ : option StrictRedis)
    : list StrictRedis :=
  match configs with
  | [] => []
  | config :: configs' =>
      let '(r, g) := get_redis_connection config __redis__ in
      r :: connections configs' g
  end.

End Connection.

(** * Properties *)

(** ** Decimal text *)

Lemma int_str (n : Z) : int (str n) = Some n.
Proof.
  unfold int, str.
  rewrite NilZero.isi.
  - simpl. f_equal. apply DecimalZ.of_to.
  - destruct n; simpl; try discriminate.
    intros [= H]. by apply DecimalPos.Unsigned.to_uint_nonnil in H.
  - destruct n; simpl; try discriminate.
    intros [= H]. by apply DecimalPos.Unsigned.to_uint_nonnil in H.
Qed.

Lemma str_inj (a b : Z) : str a = str b → a = b.
Proof.
  intros H. apply (f_equal int) in H. rewrite !int_str in H. congruence.
Qed.

Lemma get_note_key_inj (a b : string) : get_note_key a = get_note_key b → a = b.
Proof. unfold get_note_key. intros H. cbn in H. by simplify_eq. Qed.

Lemma note_key_inj (a b : Z) :
  get_note_key (str a) = get_note_key (str b) → a = b.
Proof. intros H. by apply str_inj, get_note_key_inj. Qed.

Lemma slice_note_key (m : string) :
  slice_from (String.length (get_note_key "")) (get_note_key m) = m.
Proof. reflexivity. Qed.

(** ** Key patterns *)

Lemma char_eqb_eq (a b : ascii) : Char.eqb a b = true ↔ a = b.
Proof. apply Ascii.eqb_eq. Qed.

Lemma glob_star (s : string) : glob_match "*" s = true.
Proof. induction s as [|c s IH]; [done|]. simpl in *. by rewrite IH. Qed.

Lemma has_prefix_spec (p s : string) :
  has_prefix p s = true ↔ ∃ r, s = p +:+ r.
Proof.
  revert s. induction p as [|a p IH]; intros s; simpl.
  - split; eauto.
  - destruct s as [|b s].
    + split; [done|]. by intros [r ?].
    + rewrite andb_true_iff, char_eqb_eq, IH. split.
      * intros [-> [r ->]]. eauto.
      * intros [r [= -> ->]]. eauto.
Qed.

Lemma glob_prefix (p s : string) :
  literal p = true → glob_match (p +:+ "*") s = has_prefix p s.
Proof.
  revert s. induction p as [|a p IH]; intros s Hp.
  - apply glob_star.
  - simpl in Hp. apply andb_true_iff in Hp as [Ha Hp].
    apply andb_true_iff in Ha as [Ha1 Ha2].
    apply negb_true_iff in Ha1, Ha2.
    simpl. rewrite Ha1, Ha2.
    destruct s as [|b s]; [done|]. by rewrite IH.
Qed.

Lemma glob_note_keys (k : string) :
  glob_match (get_note_key "*") k = has_prefix "note_" k.
Proof. by apply (glob_prefix "note_"). Qed.

Lemma glob_word_keys (k : string) :
  glob_match (get_word_key "*") k = has_prefix "w_" k.
Proof. by apply (glob_prefix "w_"). Qed.

Lemma glob_note_key (m : string) :
  glob_match (get_note_key "*") (get_note_key m) = true.
Proof. rewrite glob_note_keys. apply has_prefix_spec. by exists m. Qed.

Lemma word_key_not_note (w : string) :
  glob_match (get_note_key "*") (get_word_key w) = false.
Proof. by rewrite glob_note_keys. Qed.

(** ** The tokenizer *)

Lemma elem_of_add_tokens (t : string) (parts tokens : list string) :
  t ∈ foldl add_token tokens parts ↔
  t ∈ tokens ∨ ∃ part, part ∈ parts ∧ t = get_word_key (lower part).
Proof.
  revert tokens. induction parts as [|p parts IH]; intros tokens; simpl.
  - split; [by left|]. intros [H|(q & Hq & _)]; [done|]. by apply elem_of_nil in Hq.
  - rewrite IH. unfold add_token. case_bool_decide as Hin.
    + split.
      * intros [H|(q & Hq & Ht)]; [by left|]. right. exists q.
        split; [by right|done].
      * intros [H|(q & Hq & Ht)]; [by left|].
        apply elem_of_cons in Hq as [->|Hq]; [left; by subst|right; eauto].
    + rewrite elem_of_app, list_elem_of_singleton. split.
      * intros [[H|H]|(q & Hq & Ht)]; [by left| |].
        -- right. exists p. split; [left|done].
        -- right. exists q. split; [by right|done].
      * intros [H|(q & Hq & Ht)]; [by left; left|].
        apply elem_of_cons in Hq as [->|Hq]; [left; by right|right; eauto].
Qed.

Lemma elem_of_tokens_inr (t : string) (tokens : list string) :
  t ∈ (inr tokens : exn + list string) ↔ t ∈ tokens.
Proof. done. Qed.

Lemma get_note_tokens_in_range (timestamp : Z) (line : string) :
  in_gmtime_range timestamp →
  ∃ tokens, get_note_tokens timestamp line = inr tokens.
Proof. intros [note_time H]. unfold get_note_tokens. rewrite H. eauto. Qed.

Lemma get_note_tokens_inr (timestamp : Z) (line : string) (tokens : list string) :
  get_note_tokens timestamp line = inr tokens → in_gmtime_range timestamp.
Proof.
  unfold get_note_tokens, in_gmtime_range.
  destruct (gmtime timestamp) as [e|note_time]; [done|eauto].
Qed.

Lemma elem_of_get_note_tokens (t : string) (timestamp : Z) (line : string) :
  t ∈ get_note_tokens timestamp line ↔
  in_gmtime_range timestamp
  ∧ (t ∈ word_tokens line ∨ t ∈ tag_tokens line
     ∨ t ∈ temporal_tokens timestamp).
Proof.
  unfold get_note_tokens, temporal_tokens, in_gmtime_range, word_tokens,
    tag_tokens.
  destruct (gmtime timestamp) as [e|note_time].
  - split; [done|]. by intros [[? ?] _].
  - rewrite elem_of_tokens_inr, elem_of_app, !elem_of_add_tokens,
      !list_elem_of_fmap, elem_of_nil.
    split; [|naive_solver]. intros H. split; [eauto|naive_solver].
Qed.

Lemma word_key_in_tokens (w line : string) (timestamp : Z) :
  in_gmtime_range timestamp → occurs_in w line →
  get_word_key (lower w) ∈ get_note_tokens timestamp line.
Proof.
  intros Hr Hw. apply elem_of_get_note_tokens. split; [done|].
  unfold word_tokens, tag_tokens. rewrite !list_elem_of_fmap.
  destruct Hw; [left|right; left]; eauto.
Qed.

Lemma temporal_not_word_key (t : string) (timestamp : Z) :
  t ∈ temporal_tokens timestamp → has_prefix "w_" t = false.
Proof.
  unfold temporal_tokens. destruct (gmtime timestamp); [by intros ?%elem_of_nil|].
  rewrite !elem_of_cons, elem_of_nil.
  intros [->|[->|[->|[->|[->|[]]]]]]; reflexivity.
Qed.

Lemma temporal_not_note_key (t : string) (timestamp : Z) :
  t ∈ temporal_tokens timestamp → has_prefix "note_" t = false.
Proof.
  unfold temporal_tokens. destruct (gmtime timestamp); [by intros ?%elem_of_nil|].
  rewrite !elem_of_cons, elem_of_nil.
  intros [->|[->|[->|[->|[->|[]]]]]]; reflexivity.
Qed.

Lemma token_not_note_key (t : string) (timestamp : Z) (line : string) :
  t ∈ get_note_tokens timestamp line →
  glob_match (get_note_key "*") t = false.
Proof.
  rewrite elem_of_get_note_tokens, glob_note_keys.
  unfold word_tokens, tag_tokens. rewrite !list_elem_of_fmap.
  intros [_ [(p & -> & _)|[(p & -> & _)|Ht]]]; [done|done|].
  by eapply temporal_not_note_key.
Qed.

Lemma token_ne_note_key (t m : string) (timestamp : Z) (line : string) :
  t ∈ get_note_tokens timestamp line → t ≠ get_note_key m.
Proof.
  intros Ht ->. apply token_not_note_key in Ht.
  by rewrite glob_note_key in Ht.
Qed.

Lemma lower_lower (s : string) : lower (lower s) = lower s.
Proof.
  induction s as [|c s IH]; [done|]. simpl. rewrite IH. f_equal.
  destruct c as [[] [] [] [] [] [] [] []]; reflexivity.
Qed.

(** *** First-occurrence order *)

Lemma elem_of_ordered_unique (x : string) (l : list string) :
  x ∈ ordered_unique l ↔ x ∈ l.
Proof.
  induction l as [|y l IH]; [done|]. simpl.
  rewrite !elem_of_cons, list_elem_of_filter, IH.
  destruct (decide (x = y)); naive_solver.
Qed.

Lemma NoDup_ordered_unique (l : list string) : NoDup (ordered_unique l).
Proof.
  induction l as [|y l IH]; simpl; [constructor|].
  constructor.
  - rewrite list_elem_of_filter. naive_solver.
  - by apply NoDup_filter.
Qed.

Lemma ordered_unique_filter (P : string → Prop) `{!∀ x, Decision (P x)}
    (l : list string) :
  ordered_unique (filter P l) = filter P (ordered_unique l).
Proof.
  induction l as [|y l IH]; [done|]. simpl.
  rewrite !(filter_cons _ y). destruct (decide (P y)) as [Hy|Hy]; simpl.
  - rewrite IH, !list_filter_filter. f_equal.
    apply list_filter_iff. naive_solver.
  - rewrite IH. symmetry. apply list_filter_filter_l. by intros x Hx ->.
Qed.

Lemma add_tokens_ordered_unique (parts tokens : list string) :
  foldl add_token tokens parts =
  tokens ++ ordered_unique
    (filter (λ k, k ∉ tokens) ((λ part, get_word_key (lower part)) <$> parts)).
Proof.
  revert tokens. induction parts as [|p parts IH]; intros tokens; simpl.
  - by rewrite app_nil_r.
  - rewrite IH. unfold add_token. rewrite filter_cons.
    case_bool_decide as Hin; case_decide; try done.
    rewrite <-app_assoc. simpl. do 2 f_equal.
    rewrite <-ordered_unique_filter. f_equal.
    rewrite list_filter_filter. apply list_filter_iff. intros k.
    rewrite elem_of_app, list_elem_of_singleton. naive_solver.
Qed.

(** *** The shape of the matches *)

Lemma word_headed_snoc (run : string) (c : ascii) :
  run = EmptyString ∨ word_headed run = true →
  Char.is_word c = true → word_headed (snoc run c) = true.
Proof. intros [->|H] Hc; [done|]. by destruct run. Qed.

Lemma findall_word_from_headed (line run p : string) :
  run = EmptyString ∨ word_headed run = true →
  p ∈ findall_word_from run line → word_headed p = true.
Proof.
  revert run. induction line as [|c rest IH]; intros run Hrun; simpl.
  - destruct run; [by intros ?%elem_of_nil|].
    intros ->%list_elem_of_singleton. by destruct Hrun.
  - destruct (Char.is_word c) eqn:Hc.
    + apply IH. right. by apply word_headed_snoc.
    + rewrite elem_of_app. intros [Hp|Hp]; [|by apply (IH EmptyString); auto].
      destruct run; [by apply elem_of_nil in Hp|].
      apply list_elem_of_singleton in Hp as ->. by destruct Hrun.
Qed.

Lemma findall_word_headed (line p : string) :
  p ∈ findall_word line → word_headed p = true.
Proof. apply findall_word_from_headed. by left. Qed.

Lemma flush_tag_hash (st : option string) (p : string) :
  p ∈ flush_tag st → ∃ r, p = String "#" r.
Proof.
  destruct st as [[|c run]|]; simpl; try by intros ?%elem_of_nil.
  intros ->%list_elem_of_singleton. eauto.
Qed.

Lemma findall_tag_from_hash (line : string) (st : option string) (p : string) :
  p ∈ findall_tag_from st line → ∃ r, p = String "#" r.
Proof.
  revert st. induction line as [|c rest IH]; intros st; simpl.
  - apply flush_tag_hash.
  - destruct st as [run|]; [|by apply IH].
    destruct (Char.is_tag c); [by apply IH|].
    rewrite elem_of_app. intros [Hp|Hp]; [by eapply flush_tag_hash|by eapply IH].
Qed.

Lemma lower_word_head_not_hash (c : ascii) :
  Char.is_word c = true → Char.lower c ≠ "#"%char.
Proof. destruct c as [[] [] [] [] [] [] [] []]; by vm_compute. Qed.

Lemma word_token_not_tag_token (t line : string) :
  t ∈ word_tokens line → t ∉ tag_tokens line.
Proof.
  unfold word_tokens, tag_tokens. rewrite !list_elem_of_fmap.
  intros (p & -> & Hp) (q & Heq & Hq).
  apply findall_word_headed in Hp. apply findall_tag_from_hash in Hq as [r ->].
  destruct p as [|c p]; [done|]. simpl in Hp.
  unfold get_word_key in Heq. rewrite !lower_lower in Heq. simpl in Heq.
  injection Heq as Hc _. by apply lower_word_head_not_hash in Hp.
Qed.

(** ** Redis commands *)

Lemma sadd_lookup (key member : string) (db : redis) :
  is_string (db !! key) = false →
  ∃ db', Redis.sadd key member db = Ok tt db' ∧
    ∀ k, db' !! k =
      if decide (key = k) then sadd_value member (db !! key) else db !! k.
Proof.
  intros Hs. unfold Redis.sadd, Redis.members, sadd_value.
  destruct (db !! key) as [[v|s]|] eqn:E; [done| |];
    (eexists; split; [done|]); intros k; by rewrite lookup_insert.
Qed.

Lemma srem_lookup (key member : string) (db : redis) :
  is_string (db !! key) = false →
  ∃ db', Redis.srem key member db = Ok tt db' ∧
    ∀ k, db' !! k =
      if decide (key = k) then srem_value member (db !! key) else db !! k.
Proof.
  intros Hs. unfold Redis.srem, srem_value.
  destruct (db !! key) as [[v|s]|] eqn:E; [done| |].
  - eexists; split; [done|]. intros k.
    destruct (decide (s ∖ {[member]} = ∅)).
    + by rewrite lookup_delete.
    + by rewrite lookup_insert.
  - eexists; split; [done|]. intros k. by case_decide; subst.
Qed.

Lemma sadd_value_idemp (m : string) (v : option value) :
  sadd_value m (sadd_value m v) = sadd_value m v.
Proof. unfold sadd_value. do 2 f_equal. set_solver. Qed.

Lemma srem_value_idemp (m : string) (v : option value) :
  srem_value m (srem_value m v) = srem_value m v.
Proof.
  unfold srem_value. destruct v as [[|s]|]; try done.
  destruct (decide (s ∖ {[m]} = ∅)) as [He|He]; [done|].
  assert (s ∖ {[m]} ∖ {[m]} = s ∖ {[m]}) as -> by set_solver.
  by rewrite decide_False.
Qed.

Lemma sadd_value_not_string (m : string) (v : option value) :
  is_string (sadd_value m v) = false.
Proof. done. Qed.

Lemma srem_value_not_string (m : string) (v : option value) :
  is_string v = false → is_string (srem_value m v) = false.
Proof.
  unfold srem_value. destruct v as [[|s]|]; try done.
  by destruct (decide (s ∖ {[m]} = ∅)).
Qed.

(** A loop of commands each of which rewrites the value under its own key. *)
Lemma for_each_pointwise (op : string → M unit)
    (f : option value → option value) (tokens : list string) :
  (∀ t db, is_string (db !! t) = false →
     ∃ db', op t db = Ok tt db' ∧
       ∀ k, db' !! k = if decide (t = k) then f (db !! t) else db !! k) →
  (∀ v, is_string v = false → is_string (f v) = false) →
  (∀ v, f (f v) = f v) →
  ∀ db, (∀ t, t ∈ tokens → is_string (db !! t) = false) →
  ∃ db', for_each tokens op db = Ok tt db' ∧
    ∀ k, db' !! k = if decide (k ∈ tokens) then f (db !! k) else db !! k.
Proof.
  intros Hop Hf Hidem. induction tokens as [|t tokens IH]; intros db Hdb.
  - exists db. split; [done|]. intros k. rewrite decide_False; [done|].
    apply not_elem_of_nil.
  - destruct (Hop t db) as (db1 & Hrun & Hdb1); [apply Hdb; left|].
    destruct (IH db1) as (db' & Hrun' & Hdb').
    { intros t' Ht'. rewrite Hdb1. case_decide; subst.
      - apply Hf, Hdb. left.
      - apply Hdb. by right. }
    exists db'. split.
    { simpl. unfold mbind, M_bind. by rewrite Hrun. }
    intros k. rewrite Hdb', Hdb1.
    destruct (decide (t = k)) as [->|Hne].
    + rewrite (decide_True (P := k ∈ k :: tokens)) by left.
      case_decide; [apply Hidem|done].
    + destruct (decide (k ∈ tokens)) as [Hin|Hin].
      * rewrite decide_True; [done|by right].
      * rewrite decide_False; [done|].
        rewrite elem_of_cons. naive_solver.
Qed.

(** ** Well-formed stores *)

Lemma store_wf_empty : store_wf ∅.
Proof. split; intros *; by rewrite lookup_empty. Qed.

Lemma wf_token_not_string (db : redis) (t line : string) (timestamp : Z) :
  store_wf db → t ∈ get_note_tokens timestamp line →
  is_string (db !! t) = false.
Proof.
  intros Hwf Ht. destruct (db !! t) as [[v|s]|] eqn:E; try done.
  apply (wf_strings _ Hwf) in E as (ts & -> & _).
  by eapply token_ne_note_key in Ht.
Qed.

Lemma wf_word_key_not_string (db : redis) (w : string) :
  store_wf db → is_string (db !! get_word_key w) = false.
Proof.
  intros Hwf. destruct (db !! get_word_key w) as [[v|s]|] eqn:E; try done.
  apply (wf_strings _ Hwf) in E as (ts & E & _). discriminate E.
Qed.

Lemma wf_note_key_not_set (db : redis) (m : string) (s : gset string) :
  store_wf db → db !! get_note_key m ≠ Some (VSet s).
Proof.
  intros Hwf E. apply (wf_sets _ Hwf) in E. by rewrite glob_note_key in E.
Qed.

Lemma stored_note_Some (db : redis) (timestamp : Z) (text : string) :
  stored_note db timestamp = Some text ↔
  db !! get_note_key (str timestamp) = Some (VString text).
Proof.
  unfold stored_note. destruct (db !! _) as [[|]|]; naive_solver.
Qed.

Lemma stored_note_None (db : redis) (timestamp : Z) :
  store_wf db →
  stored_note db timestamp = None ↔ db !! get_note_key (str timestamp) = None.
Proof.
  intros Hwf. unfold stored_note.
  destruct (db !! _) as [[|s]|] eqn:E; try naive_solver.
  by apply wf_note_key_not_set in E.
Qed.

(** ** Saving and deleting a note *)

(** A save returns only at a timestamp that [time.gmtime] accepts, and
    raises before its first write otherwise. *)
Lemma add_redis_note_in_range (db db' : redis) (timestamp : Z) (note : string) :
  add_redis_note timestamp note db = Ok tt db' → in_gmtime_range timestamp.
Proof.
  unfold add_redis_note, mbind, M_bind.
  destruct (get_note_tokens timestamp note) as [e|tokens] eqn:E; [done|].
  intros _. by eapply get_note_tokens_inr.
Qed.

Lemma add_redis_note_out_of_range (db : redis) (timestamp : Z) (note : string)
    (e : exn) :
  gmtime timestamp = inl e → add_redis_note timestamp note db = Raise e.
Proof.
  intros H. unfold add_redis_note, mbind, M_bind, get_note_tokens.
  by rewrite H.
Qed.

Lemma wf_stored_in_range (db : redis) (timestamp : Z) (text : string) :
  store_wf db → stored_note db timestamp = Some text →
  in_gmtime_range timestamp.
Proof.
  intros Hwf Htext%stored_note_Some.
  apply (wf_strings _ Hwf) in Htext as (ts & Hk & Hr).
  by apply note_key_inj in Hk as ->.
Qed.

Lemma add_redis_note_lookup (db : redis) (timestamp : Z) (note : string) :
  in_gmtime_range timestamp → store_wf db →
  ∃ db', add_redis_note timestamp note db = Ok tt db' ∧
    ∀ k, db' !! k =
      if decide (get_note_key (str timestamp) = k) then Some (VString note)
      else if decide (k ∈ get_note_tokens timestamp note)
      then sadd_value (str timestamp) (db !! k)
      else db !! k.
Proof.
  intros Hr Hwf.
  destruct (get_note_tokens_in_range timestamp note Hr) as [tokens Htok].
  destruct (for_each_pointwise (λ t, Redis.sadd t (str timestamp))
              (sadd_value (str timestamp)) tokens)
    with (db := db) as (db1 & Hrun & Hdb1).
  - intros t db0. apply sadd_lookup.
  - intros v _. apply sadd_value_not_string.
  - apply sadd_value_idemp.
  - intros t Ht. eapply (wf_token_not_string db t note timestamp); [done|].
    by rewrite Htok.
  - exists (<[get_note_key (str timestamp) := VString note]> db1). split.
    + unfold add_redis_note, mbind, M_bind. rewrite Htok. simpl.
      by rewrite Hrun.
    + intros k. rewrite lookup_insert, Hdb1, Htok. done.
Qed.

Lemma delete_redis_note_absent (db : redis) (timestamp : Z) :
  db !! get_note_key (str timestamp) = None →
  delete_redis_note timestamp db = Ok tt db.
Proof.
  intros E. unfold delete_redis_note, mbind, M_bind, Redis.exists_.
  rewrite E. rewrite bool_decide_eq_false_2; [done|]. by intros [? ?].
Qed.

Lemma delete_redis_note_lookup (db : redis) (timestamp : Z) (line : string) :
  store_wf db → stored_note db timestamp = Some line →
  ∃ db', delete_redis_note timestamp db = Ok tt db' ∧
    ∀ k, db' !! k =
      if decide (get_note_key (str timestamp) = k) then None
      else if decide (k ∈ get_note_tokens timestamp line)
      then srem_value (str timestamp) (db !! k)
      else db !! k.
Proof.
  intros Hwf Hnote.
  pose proof (wf_stored_in_range db timestamp line Hwf Hnote) as Hr.
  destruct (get_note_tokens_in_range timestamp line Hr) as [tokens Htok].
  apply stored_note_Some in Hnote.
  destruct (for_each_pointwise (λ t, Redis.srem t (str timestamp))
              (srem_value (str timestamp)) tokens)
    with (db := db) as (db1 & Hrun & Hdb1).
  - intros t db0. apply srem_lookup.
  - apply srem_value_not_string.
  - apply srem_value_idemp.
  - intros t Ht. eapply (wf_token_not_string db t line timestamp); [done|].
    by rewrite Htok.
  - exists (base.delete (get_note_key (str timestamp)) db1). split.
    + unfold delete_redis_note, mbind, M_bind, Redis.exists_, Redis.get.
      rewrite Hnote. rewrite bool_decide_eq_true_2 by eauto. simpl.
      rewrite Hnote. simpl. rewrite Htok. simpl. by rewrite Hrun.
    + intros k. rewrite lookup_delete, Hdb1, Htok. done.
Qed.

Lemma postings_note_key (db : redis) (m : string) :
  store_wf db → postings db (get_note_key m) = ∅.
Proof.
  intros Hwf. unfold postings.
  destruct (db !! get_note_key m) as [[|s]|] eqn:E; try done.
  by apply wf_note_key_not_set in E.
Qed.

Lemma add_redis_note_ok (db : redis) (timestamp : Z) (note : string) :
  in_gmtime_range timestamp → store_wf db →
  ∃ db', add_redis_note timestamp note db = Ok tt db' ∧
    store_wf db' ∧
    (∀ k, postings db' k =
       if decide (k ∈ get_note_tokens timestamp note)
       then {[str timestamp]} ∪ postings db k else postings db k) ∧
    (∀ ts, stored_note db' ts =
       if decide (timestamp = ts) then Some note else stored_note db ts).
Proof.
  intros Hr Hwf.
  destruct (add_redis_note_lookup db timestamp note Hr Hwf)
    as (db' & Hrun & Hlk).
  exists db'. split; [done|]. split; [|split].
  - split.
    + intros k v. rewrite Hlk. repeat case_decide; try done.
      * intros _. by exists timestamp.
      * apply Hwf.
    + intros k s. rewrite Hlk. repeat case_decide; try done.
      * intros _. by eapply token_not_note_key.
      * apply Hwf.
    + intros k s m. rewrite Hlk. repeat case_decide; try done.
      * unfold sadd_value. intros [= <-].
        rewrite elem_of_union, elem_of_singleton. intros [->|Hm]; [eauto|].
        destruct (db !! k) as [[|s0]|] eqn:E; try set_solver.
        by eapply (wf_members _ Hwf).
      * apply Hwf.
  - intros k. unfold postings at 1. rewrite Hlk.
    destruct (decide (get_note_key (str timestamp) = k)) as [<-|Hne].
    + rewrite decide_False, postings_note_key; [done|done|].
      intros Hin. by eapply token_ne_note_key in Hin.
    + case_decide; [done|]. done.
  - intros ts. unfold stored_note at 1. rewrite Hlk.
    destruct (decide (timestamp = ts)) as [->|Hne].
    + by rewrite decide_True.
    + rewrite decide_False by (by intros ?%note_key_inj).
      case_decide as Hin; [|done].
      by eapply token_ne_note_key in Hin.
Qed.

Lemma delete_redis_note_ok (db : redis) (timestamp : Z) :
  store_wf db →
  ∃ db', delete_redis_note timestamp db = Ok tt db' ∧
    store_wf db' ∧
    (∀ k, postings db' k =
       match stored_note db timestamp with
       | Some line =>
           if decide (k ∈ get_note_tokens timestamp line)
           then postings db k ∖ {[str timestamp]} else postings db k
       | None => postings db k
       end) ∧
    (∀ ts, stored_note db' ts =
       if decide (timestamp = ts) then None else stored_note db ts).
Proof.
  intros Hwf. destruct (stored_note db timestamp) as [line|] eqn:Hnote.
  - destruct (delete_redis_note_lookup db timestamp line Hwf Hnote)
      as (db' & Hrun & Hlk).
    exists db'. split; [done|]. split; [|split].
    + split.
      * intros k v. rewrite Hlk. repeat case_decide; try done; [|apply Hwf].
        intros Hv. pose proof (srem_value_not_string (str timestamp) (db !! k)) as Hs.
        rewrite Hv in Hs. discriminate Hs. by eapply wf_token_not_string.
      * intros k s. rewrite Hlk. repeat case_decide; try done; [|apply Hwf].
        intros _. by eapply token_not_note_key.
      * intros k s m. rewrite Hlk. repeat case_decide; try done; [|apply Hwf].
        unfold srem_value. destruct (db !! k) as [[|s0]|] eqn:E; try done.
        case_decide; [done|]. intros [= <-] Hm.
        apply (wf_members _ Hwf k s0); [done|set_solver].
    + intros k. unfold postings at 1. rewrite Hlk.
      destruct (decide (get_note_key (str timestamp) = k)) as [<-|Hne].
      * rewrite decide_False, postings_note_key; [done|done|].
        intros Hin. by eapply token_ne_note_key in Hin.
      * case_decide; [|done]. unfold srem_value, postings.
        destruct (db !! k) as [[|s0]|] eqn:E; try set_solver.
        case_decide as He; [by rewrite He|done].
    + intros ts. unfold stored_note at 1. rewrite Hlk.
      destruct (decide (timestamp = ts)) as [->|Hne].
      * by rewrite decide_True.
      * rewrite decide_False by (by intros ?%note_key_inj).
        case_decide as Hin; [|done].
        by eapply token_ne_note_key in Hin.
  - exists db. split; [|split; [done|split; [done|]]].
    + apply delete_redis_note_absent. by apply stored_note_None.
    + intros ts. case_decide; by subst.
Qed.

(** ** The index invariant *)

Section observations.
Context (db db' : redis) (timestamp : Z).

Lemma invariant_add (note : string) :
  index_invariant db → stored_note db timestamp = None →
  (∀ k, postings db' k =
     if decide (k ∈ get_note_tokens timestamp note)
     then {[str timestamp]} ∪ postings db k else postings db k) →
  (∀ ts, stored_note db' ts =
     if decide (timestamp = ts) then Some note else stored_note db ts) →
  index_invariant db'.
Proof.
  intros Hinv Hfresh Hpost Hnote t ts. rewrite Hpost, Hnote.
  destruct (decide (timestamp = ts)) as [<-|Hne].
  - case_decide as Hin.
    + split; [eauto|set_solver].
    + split; [|naive_solver]. intros Hold.
      apply Hinv in Hold as (text & Htext & _). congruence.
  - rewrite <-(Hinv t ts). case_decide; [|done].
    rewrite elem_of_union, elem_of_singleton. split; [|by right].
    intros [Heq|?]; [|done]. by apply str_inj in Heq.
Qed.

Lemma invariant_delete :
  index_invariant db →
  (∀ k, postings db' k =
     match stored_note db timestamp with
     | Some line =>
         if decide (k ∈ get_note_tokens timestamp line)
         then postings db k ∖ {[str timestamp]} else postings db k
     | None => postings db k
     end) →
  (∀ ts, stored_note db' ts =
     if decide (timestamp = ts) then None else stored_note db ts) →
  index_invariant db'.
Proof.
  intros Hinv Hpost Hnote t ts. rewrite Hpost, Hnote.
  destruct (decide (timestamp = ts)) as [<-|Hne].
  - split; [|naive_solver]. intros Hin. exfalso.
    destruct (stored_note db timestamp) as [line|] eqn:Hline.
    + case_decide as Ht; [set_solver|].
      apply Hinv in Hin as (text & Htext & Hin). congruence.
    + apply Hinv in Hin as (text & Htext & Hin). congruence.
  - rewrite <-(Hinv t ts). destruct (stored_note db timestamp); [|done].
    case_decide; [|done].
    rewrite elem_of_difference, elem_of_singleton. split; [naive_solver|].
    intros Hin. split; [done|]. by intros ?%str_inj.
Qed.

Lemma no_dangling_add (note : string) :
  no_dangling db →
  (∀ k, postings db' k =
     if decide (k ∈ get_note_tokens timestamp note)
     then {[str timestamp]} ∪ postings db k else postings db k) →
  (∀ ts, stored_note db' ts =
     if decide (timestamp = ts) then Some note else stored_note db ts) →
  no_dangling db'.
Proof.
  intros Hnd Hpost Hnote t ts. rewrite Hpost, Hnote.
  destruct (decide (timestamp = ts)) as [<-|Hne]; [by eauto|].
  intros Hin. apply (Hnd t). case_decide; [|done].
  apply elem_of_union in Hin as [Heq%elem_of_singleton|?]; [|done].
  by apply str_inj in Heq.
Qed.

End observations.

Lemma consistent_empty : consistent ∅.
Proof.
  split; [apply store_wf_empty|]. intros t ts.
  unfold postings, stored_note. rewrite !lookup_empty. set_solver.
Qed.

Lemma consistent_no_dangling (db : redis) : consistent db → no_dangling db.
Proof. intros [_ Hinv] t ts Hin. apply Hinv in Hin as (text & -> & _). eauto. Qed.

(** A call returns on a well-formed store exactly when [time.gmtime]
    accepts the timestamp it saves at; a delete always returns. *)
Lemma run_call_returns (c : call) (db : redis) :
  store_wf db → call_in_range c →
  ∃ db', run_call c db = Ok tt db' ∧ store_wf db'.
Proof.
  intros Hwf Hr. destruct c as [ts note|ts|ts1 ts2 note]; simpl in *.
  - destruct (add_redis_note_ok db ts note Hr Hwf) as (db' & Hrun & Hwf' & _).
    by exists db'.
  - destruct (delete_redis_note_ok db ts Hwf) as (db' & Hrun & Hwf' & _).
    by exists db'.
  - destruct (delete_redis_note_ok db ts1 Hwf) as (db1 & Hrun1 & Hwf1 & _).
    destruct (add_redis_note_ok db1 ts2 note Hr Hwf1) as (db' & Hrun & Hwf' & _).
    exists db'. split; [|done].
    unfold update_note, delete_note, save_note, mbind, M_bind. by rewrite Hrun1.
Qed.

Lemma run_call_in_range (c : call) (db db' : redis) :
  store_wf db → run_call c db = Ok tt db' → call_in_range c.
Proof.
  intros Hwf. destruct c as [ts note|ts|ts1 ts2 note]; simpl; [|done|].
  - apply add_redis_note_in_range.
  - unfold update_note, delete_note, save_note, mbind, M_bind.
    destruct (delete_redis_note ts1 db) as [[] db1|e]; [|done].
    apply add_redis_note_in_range.
Qed.

Lemma run_call_wf (c : call) (db db' : redis) :
  store_wf db → run_call c db = Ok tt db' → store_wf db'.
Proof.
  intros Hwf Hrun.
  destruct (run_call_returns c db Hwf (run_call_in_range c db db' Hwf Hrun))
    as (db1 & Hrun1 & Hwf1).
  congruence.
Qed.

Lemma run_call_consistent (c : call) (db db' : redis) :
  consistent db → saves_fresh c db = true →
  run_call c db = Ok tt db' → consistent db'.
Proof.
  intros [Hwf Hinv] Hfresh Hrun0.
  pose proof (run_call_in_range c db db' Hwf Hrun0) as Hr.
  destruct c as [ts note|ts|ts1 ts2 note]; simpl in *.
  - apply bool_decide_eq_true in Hfresh.
    destruct (add_redis_note_ok db ts note Hr Hwf)
      as (db1 & Hrun & Hwf' & Hp & Hn).
    assert (Ok tt db1 = Ok tt db') as [= ->] by (by rewrite <-Hrun, <-Hrun0).
    split; [done|]. by eapply invariant_add.
  - destruct (delete_redis_note_ok db ts Hwf) as (db1 & Hrun & Hwf' & Hp & Hn).
    assert (Ok tt db1 = Ok tt db') as [= ->] by (by rewrite <-Hrun, <-Hrun0).
    split; [done|]. by eapply invariant_delete.
  - destruct (delete_redis_note_ok db ts1 Hwf) as (db1 & Hrun1 & Hwf1 & Hp1 & Hn1).
    destruct (add_redis_note_ok db1 ts2 note Hr Hwf1)
      as (db2 & Hrun & Hwf' & Hp & Hn).
    assert (db2 = db') as ->.
    { revert Hrun0. unfold update_note, delete_note, save_note, mbind, M_bind.
      rewrite Hrun1. congruence. }
    split; [done|]. eapply invariant_add; [|..|done|done].
    + by eapply invariant_delete.
    + rewrite Hn1. case_decide; [done|].
      apply orb_true_iff in Hfresh as [?%bool_decide_eq_true|?%bool_decide_eq_true];
        done.
Qed.

Lemma run_calls_cons (c : call) (calls : list call) (db : redis) :
  run_calls (c :: calls) db =
  match run_call c db with
  | Ok _ db1 => run_calls calls db1
  | Raise e => Raise e
  end.
Proof.
  unfold run_calls. simpl. unfold mbind, M_bind.
  by destruct (run_call c db) as [[] ?|?].
Qed.

Lemma run_calls_consistent (calls : list call) (db db' : redis) :
  consistent db → disciplined calls db = true →
  run_calls calls db = Ok tt db' → consistent db'.
Proof.
  revert db. induction calls as [|c calls IH]; intros db Hc Hd.
  - unfold run_calls. simpl. intros [= <-]. done.
  - rewrite run_calls_cons. simpl in Hd.
    apply andb_true_iff in Hd as [Hfresh Hd].
    destruct (run_call c db) as [[] db1|e] eqn:Hrun; [|done].
    intros Hrest. apply (IH db1); [|done|done].
    by eapply run_call_consistent.
Qed.

Lemma run_calls_returns (calls : list call) (db : redis) :
  store_wf db → Forall call_in_range calls →
  ∃ db', run_calls calls db = Ok tt db' ∧ store_wf db'.
Proof.
  revert db. induction calls as [|c calls IH]; intros db Hwf Hr.
  - by exists db.
  - apply Forall_cons in Hr as [Hc Hr].
    destruct (run_call_returns c db Hwf Hc) as (db1 & Hrun & Hwf1).
    destruct (IH db1 Hwf1 Hr) as (db' & Hrun' & Hwf').
    exists db'. split; [|done]. by rewrite run_calls_cons, Hrun.
Qed.

Lemma run_calls_wf (calls : list call) (db db' : redis) :
  store_wf db → run_calls calls db = Ok tt db' → store_wf db'.
Proof.
  revert db. induction calls as [|c calls IH]; intros db Hwf.
  - unfold run_calls. simpl. by intros [= <-].
  - rewrite run_calls_cons.
    destruct (run_call c db) as [[] db1|e] eqn:Hrun; [|done].
    apply IH. by eapply run_call_wf.
Qed.

Lemma disciplined_app (pre suf : list call) (db : redis) :
  disciplined (pre ++ suf) db = true → disciplined pre db = true.
Proof.
  revert db. induction pre as [|c pre IH]; intros db; simpl; [done|].
  rewrite !andb_true_iff. intros [Hfresh Hd]. split; [done|].
  destruct (run_call c db); [by apply IH|done].
Qed.

Lemma consistent_after (calls : list call) :
  disciplined calls ∅ = true → consistent (after calls).
Proof.
  intros Hd. unfold after.
  destruct (run_calls calls ∅) as [[] db|e] eqn:Hrun; [|apply consistent_empty].
  by eapply run_calls_consistent; [apply consistent_empty|..].
Qed.

(** ** Set algebra of the search *)

Lemma elem_of_foldl_intersection (m : string) (ss : list (gset string))
    (s : gset string) :
  m ∈ foldl (∩) s ss ↔ m ∈ s ∧ Forall (λ s', m ∈ s') ss.
Proof.
  revert s. induction ss as [|s' ss IH]; intros s; simpl.
  - split; [by intros ?; split|by intros [? _]].
  - rewrite IH, elem_of_intersection, Forall_cons. naive_solver.
Qed.

Lemma elem_of_foldl_union (m : string) (ss : list (gset string))
    (s : gset string) :
  m ∈ foldl (∪) s ss ↔ m ∈ s ∨ m ∈ ⋃ ss.
Proof.
  revert s. induction ss as [|s' ss IH]; intros s; simpl.
  - set_solver.
  - rewrite IH. set_solver.
Qed.

Lemma members_postings (db : redis) (key : string) :
  is_string (db !! key) = false →
  Redis.members db key = Some (postings db key).
Proof.
  unfold Redis.members, postings. by destruct (db !! key) as [[|]|].
Qed.

Lemma all_members_postings (db : redis) (terms : list string) :
  store_wf db →
  Redis.all_members db (get_word_key <$> terms) =
  Some (postings db <$> (get_word_key <$> terms)).
Proof.
  intros Hwf. induction terms as [|w terms IH]; [done|].
  rewrite !fmap_cons. cbn [Redis.all_members].
  rewrite members_postings by by apply wf_word_key_not_string.
  by rewrite IH.
Qed.

Lemma sinter_postings (db : redis) (terms : list string) :
  store_wf db →
  Redis.sinter (get_word_key <$> terms) db =
  Ok (intersect_postings db (get_word_key <$> terms)) db.
Proof.
  intros Hwf. unfold Redis.sinter. rewrite all_members_postings by done.
  destruct terms as [|w terms]; [done|]. simpl. f_equal.
  apply set_eq. intros m.
  rewrite elem_of_foldl_intersection, elem_of_filter, Forall_fmap.
  naive_solver.
Qed.

Lemma sunion_postings (db : redis) (terms : list string) :
  store_wf db →
  Redis.sunion (get_word_key <$> terms) db =
  Ok (union_postings db (get_word_key <$> terms)) db.
Proof.
  intros Hwf. unfold Redis.sunion. rewrite all_members_postings by done.
  f_equal. apply set_eq. intros m. rewrite elem_of_foldl_union. set_solver.
Qed.

Lemma keys_notes (db : redis) :
  Redis.keys (get_note_key "*") db =
  Ok (filter (λ key, has_prefix "note_" key) (elements (dom db))) db.
Proof.
  unfold Redis.keys. f_equal. apply list_filter_iff. intros k.
  by rewrite glob_note_keys.
Qed.

Lemma note_keys_set (db : redis) :
  list_to_set (filter (λ key, has_prefix "note_" key) (elements (dom db))) =
  (filter (λ key, has_prefix "note_" key) (dom db) : gset string).
Proof.
  apply set_eq. intros k.
  by rewrite elem_of_list_to_set, list_elem_of_filter, elem_of_elements,
    elem_of_filter.
Qed.

Lemma slice_has_prefix (a b : string) :
  has_prefix "note_" a → has_prefix "note_" b →
  slice_from 5 a = slice_from 5 b → a = b.
Proof.
  intros Ha%Is_true_true%has_prefix_spec Hb%Is_true_true%has_prefix_spec.
  destruct Ha as [ra ->], Hb as [rb ->]. simpl. intros H. by f_equal.
Qed.

Lemma all_note_timestamps_elements (db : redis) :
  slice_from 5 <$>
    elements (filter (λ key, has_prefix "note_" key) (dom db) : gset string)
  ≡ₚ elements (all_note_timestamps db).
Proof.
  unfold all_note_timestamps, set_map. symmetry.
  apply elements_list_to_set, NoDup_fmap_2_strong; [|apply NoDup_elements].
  intros a b Ha%elem_of_elements%elem_of_filter Hb%elem_of_elements%elem_of_filter.
  apply slice_has_prefix; tauto.
Qed.

(** ** Resolved timestamps *)

Lemma elem_of_all_note_timestamps (db : redis) (m : string) :
  store_wf db →
  m ∈ all_note_timestamps db ↔
  ∃ ts : Z, m = str ts ∧ is_Some (stored_note db ts).
Proof.
  intros Hwf. unfold all_note_timestamps.
  rewrite elem_of_map. split.
  - intros (k & -> & [Hk Hdom]%elem_of_filter).
    apply elem_of_dom in Hdom as [v Hv].
    apply Is_true_true in Hk. rewrite <-glob_note_keys in Hk.
    destruct v as [text|s].
    + destruct (wf_strings _ Hwf _ _ Hv) as (ts & -> & _). exists ts.
      split; [done|]. exists text. by apply stored_note_Some.
    + apply (wf_sets _ Hwf) in Hv. congruence.
  - intros (ts & -> & [text Htext]). apply stored_note_Some in Htext.
    exists (get_note_key (str ts)). split; [done|].
    apply elem_of_filter. split; [done|]. apply elem_of_dom. eauto.
Qed.

Lemma elem_of_postings_wf (db : redis) (t m : string) :
  store_wf db → m ∈ postings db t → ∃ ts : Z, m = str ts.
Proof.
  intros Hwf. unfold postings.
  destruct (db !! t) as [[|s]|] eqn:E; try set_solver.
  by apply (wf_members _ Hwf t).
Qed.

Lemma resolve_members (db : redis) (request : search_request) (m : string) :
  store_wf db → m ∈ resolve db request → ∃ ts : Z, m = str ts.
Proof.
  intros Hwf. unfold resolve.
  pose proof (elem_of_all_note_timestamps db m Hwf) as Hall.
  assert (∀ l, m ∈ intersect_postings db l → ∃ ts : Z, m = str ts) as Hi.
  { intros [|t l]; simpl; [set_solver|].
    intros [_ Hm]%elem_of_filter. by eapply elem_of_postings_wf. }
  destruct (get_word_key <$> inclusion_terms request),
    (get_word_key <$> exclusion_terms request);
    rewrite ?elem_of_difference; intros Hm.
  - apply Hall in Hm as (? & ? & _); eauto.
  - destruct Hm as [Hm _]. apply Hall in Hm as (? & ? & _); eauto.
  - by apply Hi in Hm.
  - destruct Hm as [Hm _]. by apply Hi in Hm.
Qed.

Lemma no_dangling_fetchable (db : redis) (request : search_request) :
  store_wf db → no_dangling db → fetchable db request.
Proof.
  intros Hwf Hnd ts. unfold resolve.
  assert (∀ l, str ts ∈ intersect_postings db l → is_Some (stored_note db ts))
    as Hi.
  { intros [|t l]; simpl; [set_solver|].
    intros [_ Hm]%elem_of_filter. by eapply Hnd. }
  assert (str ts ∈ all_note_timestamps db → is_Some (stored_note db ts)) as Hall.
  { intros (ts' & Heq & Hsome)%elem_of_all_note_timestamps; [|done].
    by apply str_inj in Heq as ->. }
  destruct (get_word_key <$> inclusion_terms request),
    (get_word_key <$> exclusion_terms request);
    rewrite ?elem_of_difference; intros Hm.
  - by apply Hall.
  - apply Hall, Hm.
  - by apply Hi in Hm.
  - destruct Hm as [Hm _]. by apply Hi in Hm.
Qed.

Lemma for_list_int (raw : list string) (db : redis) :
  Forall (λ m, is_Some (int m)) raw →
  for_list raw int_decode db = Ok (omap int raw) db.
Proof.
  induction 1 as [|m raw [n Hn] _ IH]; [done|].
  assert (int_decode m db = Ok n db) as Hm.
  { unfold int_decode. by rewrite Hn. }
  cbn [for_list]. unfold mbind, M_bind. rewrite Hm, IH.
  unfold mret, M_ret. f_equal. simpl. by rewrite Hn.
Qed.

Lemma for_list_decode (l : list (option string)) (db : redis) :
  Forall is_Some l →
  ∃ texts, for_list l decode db = Ok texts db ∧ Some <$> texts = l.
Proof.
  induction 1 as [|x l [text ->] _ (texts & Hrun & Htexts)].
  - by exists [].
  - exists (text :: texts). split.
    + cbn [for_list]. unfold mbind, M_bind.
      change (decode (Some text) db) with (Ok text db). cbv iota beta.
      by rewrite Hrun.
    + by rewrite fmap_cons, Htexts.
Qed.

Lemma mget_stored_notes (db : redis) (timestamps : list Z) :
  Redis.mget ((λ timestamp, get_note_key (str timestamp)) <$> timestamps) db =
  Ok (stored_note db <$> timestamps) db.
Proof. unfold Redis.mget. f_equal. by rewrite <-list_fmap_compose. Qed.

Lemma merge_sort_perm (l1 l2 : list Z) :
  l1 ≡ₚ l2 → merge_sort Z.le l1 = merge_sort Z.le l2.
Proof.
  intros Hp. apply (Sorted_unique Z.le); try apply Sorted_merge_sort; try apply _.
  by rewrite !merge_sort_Permutation.
Qed.

Lemma elem_of_sorted_timestamps (db : redis) (request : search_request) (ts : Z) :
  store_wf db →
  ts ∈ sorted_timestamps db request ↔ str ts ∈ resolve db request.
Proof.
  intros Hwf. unfold sorted_timestamps.
  rewrite merge_sort_Permutation, list_elem_of_omap. split.
  - intros (m & Hm%elem_of_elements & Hint).
    destruct (resolve_members _ _ _ Hwf Hm) as [ts' ->].
    rewrite int_str in Hint. by injection Hint as ->.
  - intros Hm. exists (str ts). split; [by apply elem_of_elements|apply int_str].
Qed.

Lemma find_tail (db : redis) (request : search_request) (raw : list string) :
  store_wf db → fetchable db request →
  raw ≡ₚ elements (resolve db request) →
  ((timestamps ← for_list raw int_decode;
    let timestamps := merge_sort Z.le timestamps in
    if bool_decide (timestamps = []) then mret [(None, None)]
    else
      notes ← Redis.mget
        ((λ timestamp, get_note_key (str timestamp)) <$> timestamps);
      notes ← for_list notes decode;
      mret (zip (Some <$> timestamps) (Some <$> notes))) : M (list found)) db
  = Ok (resolved_notes db request) db.
Proof.
  intros Hwf Hnd Hraw. unfold mbind, M_bind.
  rewrite for_list_int.
  2:{ apply Forall_forall. intros m Hm. rewrite Hraw in Hm.
      apply elem_of_elements in Hm.
      destruct (resolve_members _ _ _ Hwf Hm) as [ts ->].
      rewrite int_str. eauto. }
  assert (merge_sort Z.le (omap int raw) = sorted_timestamps db request) as ->.
  { apply merge_sort_perm. by rewrite Hraw. }
  unfold resolved_notes.
  assert (Forall is_Some (stored_note db <$> sorted_timestamps db request)) as Hall.
  { apply Forall_fmap, Forall_forall. intros ts Hts. simpl.
    apply elem_of_sorted_timestamps in Hts; [|done]. by apply Hnd. }
  destruct (sorted_timestamps db request) as [|ts l] eqn:Hsorted; [done|].
  rewrite bool_decide_eq_false_2 by done.
  rewrite mget_stored_notes.
  destruct (for_list_decode _ db Hall) as (texts & -> & Htexts).
  unfold mret, M_ret. by rewrite Htexts.
Qed.

Lemma find_redis_notes_resolved (db : redis) (request : search_request) :
  store_wf db → fetchable db request →
  find_redis_notes request db = Ok (resolved_notes db request) db.
Proof.
  intros Hwf Hnd. unfold find_redis_notes.
  unfold mbind at 1. unfold M_bind at 1.
  pose proof (find_tail db request) as Htail.
  unfold fetchable in Hnd. unfold fetchable, resolve in Htail.
  destruct request as [inclusion exclusion]; simpl in *.
  destruct inclusion as [|w inclusion], exclusion as [|x exclusion].
  - rewrite !bool_decide_eq_false_2 by (by intros H; apply H).
    unfold mbind at 1. unfold M_bind at 1. rewrite keys_notes.
    unfold mret at 1. unfold M_ret at 1.
    rewrite note_keys_set. apply Htail; [done|done|].
    apply all_note_timestamps_elements.
  - rewrite bool_decide_eq_false_2 by (by intros H; apply H).
    rewrite bool_decide_eq_true_2 by done.
    unfold mbind at 1. unfold M_bind at 1. rewrite keys_notes.
    unfold mbind at 1. unfold M_bind at 1.
    rewrite (sunion_postings db (x :: exclusion)) by done.
    unfold mret at 1. unfold M_ret at 1.
    rewrite note_keys_set. by apply Htail.
  - rewrite bool_decide_eq_true_2 by done.
    rewrite bool_decide_eq_false_2 by (by intros H; apply H).
    unfold mbind at 1. unfold M_bind at 1.
    rewrite (sinter_postings db (w :: inclusion)) by done.
    unfold mret at 1. unfold M_ret at 1.
    by apply Htail.
  - rewrite !bool_decide_eq_true_2 by done.
    unfold mbind at 1. unfold M_bind at 1.
    rewrite (sinter_postings db (w :: inclusion)) by done.
    unfold mbind at 1. unfold M_bind at 1.
    rewrite (sunion_postings db (x :: exclusion)) by done.
    unfold mret at 1. unfold M_ret at 1.
    by apply Htail.
Qed.

Lemma elem_of_zip_fmap {A B C} (f : A → B) (g : A → C) (l : list A) (b : B) (c : C) :
  (b, c) ∈ zip (f <$> l) (g <$> l) ↔ ∃ a, a ∈ l ∧ b = f a ∧ c = g a.
Proof.
  induction l as [|a l IH]; simpl.
  - rewrite elem_of_nil. split; [done|]. by intros (a & ?%elem_of_nil & _).
  - rewrite elem_of_cons, IH. split.
    + intros [[= -> ->]|(a' & Ha' & -> & ->)].
      * exists a. split; [left|done].
      * exists a'. split; [by right|done].
    + intros (a' & Ha' & -> & ->). apply elem_of_cons in Ha' as [->|Ha'].
      * by left.
      * right. eauto.
Qed.

Lemma elem_of_resolved_notes (db : redis) (request : search_request)
    (ts : Z) (x : option string) :
  store_wf db →
  (Some ts, x) ∈ resolved_notes db request ↔
  str ts ∈ resolve db request ∧ x = stored_note db ts.
Proof.
  intros Hwf. rewrite <-elem_of_sorted_timestamps by done.
  unfold resolved_notes.
  destruct (sorted_timestamps db request) as [|t l] eqn:Hsorted.
  - rewrite list_elem_of_singleton, elem_of_nil. naive_solver.
  - rewrite (elem_of_zip_fmap Some (stored_note db)). naive_solver.
Qed.

(** * The calendar *)

Lemma all_days_spec (n : nat) (start day : Z) :
  all_days n start = true → start ≤ day < start + Z.of_nat n →
  date_ok day = true.
Proof.
  revert start. induction n as [|n IH]; intros start; simpl; [lia|].
  intros [Hd Hrest]%andb_true_iff Hday.
  destruct (decide (day = start)) as [->|Hne]; [done|].
  apply (IH (start + 1)); [done|lia].
Qed.

Lemma date_ok_era : all_days (Z.to_nat 146097) (-719468) = true.
Proof. by vm_compute. Qed.

Lemma is_leap_shift (year e : Z) : is_leap (year + 400 * e) = is_leap year.
Proof.
  unfold is_leap.
  replace ((year + 400 * e) mod 4) with (year mod 4)
    by (Z.div_mod_to_equations; lia).
  replace ((year + 400 * e) mod 100) with (year mod 100)
    by (Z.div_mod_to_equations; lia).
  replace ((year + 400 * e) mod 400) with (year mod 400)
    by (Z.div_mod_to_equations; lia).
  done.
Qed.

Lemma days_in_month_shift (year month e : Z) :
  days_in_month (year + 400 * e) month = days_in_month year month.
Proof. unfold days_in_month. by rewrite is_leap_shift. Qed.

Lemma days_from_epoch_shift (year month day e : Z) :
  days_from_epoch (year + 400 * e) month day =
  days_from_epoch year month day + 146097 * e.
Proof.
  unfold days_from_epoch.
  assert (days_in_month (year + 400 * e) <$> seqZ 1 (month - 1)
          = days_in_month year <$> seqZ 1 (month - 1)) as ->.
  { apply list_fmap_ext. intros _ m _. apply days_in_month_shift. }
  assert (leap_years (year + 400 * e - 1) = leap_years (year - 1) + 97 * e) as ->.
  { unfold leap_years. Z.div_mod_to_equations. lia. }
  lia.
Qed.

Lemma civil_from_days_shift (days e : Z) :
  civil_from_days (days + 146097 * e) =
  let '(y, m, d) := civil_from_days days in (y + 400 * e, m, d).
Proof.
  unfold civil_from_days. cbv zeta.
  assert ((days + 146097 * e + 719468) / 146097 = (days + 719468) / 146097 + e)
    as -> by (Z.div_mod_to_equations; lia).
  replace (days + 146097 * e + 719468 - ((days + 719468) / 146097 + e) * 146097)
    with (days + 719468 - (days + 719468) / 146097 * 146097) by lia.
  f_equal. f_equal. lia.
Qed.

Lemma date_ok_all (days : Z) : date_ok days = true.
Proof.
  set (era := (days + 719468) / 146097).
  set (day0 := days - 146097 * era).
  assert (-719468 ≤ day0 < -719468 + 146097) as Hrange.
  { unfold day0, era. Z.div_mod_to_equations. lia. }
  pose proof (all_days_spec _ _ day0 date_ok_era) as H0.
  rewrite Z2Nat.id in H0 by lia. specialize (H0 Hrange).
  replace days with (day0 + 146097 * era) by (unfold day0; lia).
  clearbody day0 era. unfold date_ok in *.
  rewrite civil_from_days_shift.
  destruct (civil_from_days day0) as [[y m] d].
  rewrite days_in_month_shift, days_from_epoch_shift.
  repeat (apply andb_true_iff in H0 as [H0 ?]).
  repeat (apply andb_true_iff; split); try done.
  apply Z.eqb_eq. apply Z.eqb_eq in H. lia.
Qed.

Lemma calendar_utc_fields (timestamp : Z) : utc_fields timestamp (calendar timestamp).
Proof.
  unfold utc_fields, calendar.
  pose proof (date_ok_all (timestamp / 86400)) as Hok. unfold date_ok in Hok.
  destruct (civil_from_days (timestamp / 86400)) as [[y m] d]. simpl.
  repeat (apply andb_true_iff in Hok as [Hok ?]).
  apply Z.leb_le in Hok. apply Z.leb_le in H0. apply Z.leb_le in H1.
  apply Z.leb_le in H2. apply Z.eqb_eq in H. rewrite H.
  split; [lia|]. split; [lia|].
  pose proof (Z.mod_pos_bound timestamp 86400 ltac:(lia)).
  pose proof (Z.mod_pos_bound (timestamp / 86400 + 3) 7 ltac:(lia)).
  split; [Z.div_mod_to_equations; lia|]. split; [lia|].
  split; [|done]. Z.div_mod_to_equations. lia.
Qed.

Lemma days_in_month_le (year month : Z) : days_in_month year month ≤ 31.
Proof.
  unfold days_in_month.
  destruct (month =? 2); [by destruct (is_leap year)|].
  by destruct ((month =? 4) || (month =? 6) || (month =? 9) || (month =? 11)).
Qed.

(** What [time.gmtime] returns, when it returns. *)
Lemma gmtime_inr (timestamp : Z) (note_time : struct_time) :
  gmtime timestamp = inr note_time →
  note_time = calendar timestamp
  ∧ fits 64 timestamp = true
  ∧ fits 32 (tm_year note_time - 1900) = true.
Proof.
  unfold gmtime. cbv zeta. destruct (fits 64 timestamp); [|done].
  cbn [negb]. destruct (fits 32 _) eqn:E; [|done].
  cbn [negb]. by intros [= <-].
Qed.

Lemma gmtime_utc_fields (timestamp : Z) (note_time : struct_time) :
  gmtime timestamp = inr note_time → utc_fields timestamp note_time.
Proof. intros [-> _]%gmtime_inr. apply calendar_utc_fields. Qed.

(** * The tokenizer's contract *)

Lemma filter_all (P : string → Prop) `{!∀ x, Decision (P x)} (l : list string) :
  (∀ x, x ∈ l → P x) → filter P l = l.
Proof.
  induction l as [|y l IH]; intros Hl; [done|].
  rewrite filter_cons_True by (apply Hl; left).
  f_equal. apply IH. intros x Hx. apply Hl. by right.
Qed.

Lemma NoDup_temporal_tokens (timestamp : Z) : NoDup (temporal_tokens timestamp).
Proof.
  unfold temporal_tokens. destruct (gmtime timestamp); [apply NoDup_nil_2|].
  repeat (apply NoDup_cons; split;
    [rewrite ?elem_of_cons, elem_of_nil; intros H; decompose [or] H; done|]).
  apply NoDup_nil_2.
Qed.

Lemma temporal_tokens_inr (timestamp : Z) (note_time : struct_time) :
  gmtime timestamp = inr note_time →
  temporal_tokens timestamp =
    [ "year_" +:+ str (tm_year note_time);
      "month_" +:+ str (tm_mon note_time);
      "day_" +:+ str (tm_mday note_time);
      "hour_" +:+ str (tm_hour note_time);
      "weekday_" +:+ str (tm_wday note_time) ].
Proof. intros H. unfold temporal_tokens. by rewrite H. Qed.

Lemma get_note_tokens_eq (timestamp : Z) (line : string)
    (note_time : struct_time) :
  gmtime timestamp = inr note_time →
  get_note_tokens timestamp line =
    inr (ordered_unique (word_tokens line) ++ ordered_unique (tag_tokens line) ++
         temporal_tokens timestamp).
Proof.
  intros Hr. rewrite (temporal_tokens_inr _ _ Hr).
  unfold get_note_tokens. rewrite Hr, !add_tokens_ordered_unique. simpl.
  rewrite <-app_assoc. fold (word_tokens line) (tag_tokens line).
  rewrite (filter_all (λ k, k ∉ [])) by (intros k _; apply not_elem_of_nil).
  rewrite filter_all; [done|].
  intros k Hk Hw. simpl in Hw. rewrite elem_of_ordered_unique in Hw.
  by apply word_token_not_tag_token in Hw.
Qed.

Lemma NoDup_get_note_tokens (timestamp : Z) (line : string)
    (tokens : list string) :
  get_note_tokens timestamp line = inr tokens → NoDup tokens.
Proof.
  intros Htok.
  destruct (get_note_tokens_inr _ _ _ Htok) as [note_time Hr].
  rewrite (get_note_tokens_eq _ _ _ Hr) in Htok. injection Htok as <-.
  apply NoDup_app. split; [apply NoDup_ordered_unique|].
  split; [|apply NoDup_app; split; [apply NoDup_ordered_unique|
                                    split; [|apply NoDup_temporal_tokens]]].
  - intros t Hw. rewrite elem_of_ordered_unique in Hw.
    rewrite elem_of_app, elem_of_ordered_unique. intros [Ht|Ht].
    + by apply word_token_not_tag_token in Hw.
    + apply temporal_not_word_key in Ht.
      unfold word_tokens in Hw. apply list_elem_of_fmap in Hw as (p & -> & _).
      done.
  - intros t Hw Ht. rewrite elem_of_ordered_unique in Hw.
    apply temporal_not_word_key in Ht.
    unfold tag_tokens in Hw. apply list_elem_of_fmap in Hw as (p & -> & _).
    done.
Qed.

(** *** The two patterns *)

Lemma all_chars_snoc (p : ascii → bool) (run : string) (c : ascii) :
  all_chars p (snoc run c) = all_chars p run && p c.
Proof.
  induction run as [|d run IH]; simpl.
  - by rewrite andb_true_r.
  - unfold snoc in IH. by rewrite IH, andb_assoc.
Qed.

Lemma snoc_not_empty (run : string) (c : ascii) : snoc run c ≠ EmptyString.
Proof. by destruct run. Qed.

Lemma findall_word_from_chars (line run p : string) :
  all_chars Char.is_word run = true →
  p ∈ findall_word_from run line →
  p ≠ EmptyString ∧ all_chars Char.is_word p = true.
Proof.
  revert run. induction line as [|c line IH]; intros run Hrun; simpl.
  - destruct run; [by intros ?%elem_of_nil|].
    by intros ->%list_elem_of_singleton.
  - destruct (Char.is_word c) eqn:Hc.
    + apply IH. by rewrite all_chars_snoc, Hrun, Hc.
    + rewrite elem_of_app. intros [Hp|Hp]; [|by apply (IH EmptyString)].
      destruct run; [by apply elem_of_nil in Hp|].
      by apply list_elem_of_singleton in Hp as ->.
Qed.

Lemma findall_word_from_split (a b run : string) (c : ascii) :
  Char.is_word c = false →
  findall_word_from run (a +:+ String c b) =
  findall_word_from run a ++ findall_word b.
Proof.
  intros Hc. revert run. induction a as [|d a IH]; intros run; simpl.
  - by rewrite Hc.
  - destruct (Char.is_word d); [apply IH|].
    by rewrite IH, app_assoc.
Qed.

Lemma append_empty_r (s : string) : s +:+ EmptyString = s.
Proof.
  induction s as [|c s IH]; [done|].
  change (String c (s +:+ EmptyString) = String c s). by f_equal.
Qed.

Lemma snoc_append (run s : string) (c : ascii) :
  snoc run c +:+ s = run +:+ String c s.
Proof.
  unfold snoc. induction run as [|d run IH]; [done|].
  change (String d ((run +:+ String c EmptyString) +:+ s)
          = String d (run +:+ String c s)).
  by f_equal.
Qed.

Lemma findall_word_from_run (s run : string) :
  all_chars Char.is_word s = true →
  findall_word_from run s = flush_word (run +:+ s).
Proof.
  revert run. induction s as [|c s IH]; intros run Hs; simpl in *.
  - by rewrite append_empty_r.
  - apply andb_true_iff in Hs as [Hc Hs].
    by rewrite Hc, IH, snoc_append.
Qed.

Lemma findall_word_run (a : string) :
  a ≠ EmptyString → all_chars Char.is_word a = true → findall_word a = [a].
Proof.
  intros Ha Hall. unfold findall_word. rewrite findall_word_from_run by done.
  simpl. by destruct a.
Qed.

Lemma findall_tag_from_split (a b : string) (c : ascii) (st : option string) :
  Char.is_tag c = false →
  findall_tag_from st (a +:+ String c b) =
  findall_tag_from st a ++ findall_tag (String c b).
Proof.
  intros Hc. revert st. induction a as [|d a IH]; intros st; simpl.
  - destruct st as [run|]; [by rewrite Hc|done].
  - destruct st as [run|]; [|apply IH].
    destruct (Char.is_tag d); [apply IH|].
    by rewrite IH, app_assoc.
Qed.

Lemma findall_tag_from_run (s run : string) :
  all_chars Char.is_tag s = true →
  findall_tag_from (Some run) s = flush_tag (Some (run +:+ s)).
Proof.
  revert run. induction s as [|c s IH]; intros run Hs; simpl in *.
  - by rewrite append_empty_r.
  - apply andb_true_iff in Hs as [Hc Hs].
    by rewrite Hc, IH, snoc_append.
Qed.

Lemma findall_tag_run (run : string) :
  run ≠ EmptyString → all_chars Char.is_tag run = true →
  findall_tag (String "#" run) = [String "#" run].
Proof.
  intros Hne Hrun. unfold findall_tag. simpl.
  change (tag_start "#") with (Some EmptyString).
  rewrite findall_tag_from_run by done. simpl. by destruct run.
Qed.

Lemma findall_tag_no_hash (line : string) :
  all_chars (λ c, negb (Char.eqb c "#")) line = true → findall_tag line = [].
Proof.
  unfold findall_tag. induction line as [|c line IH]; [done|]. simpl.
  intros [Hc Hline]%andb_true_iff. unfold tag_start.
  apply negb_true_iff in Hc. rewrite Hc. by apply IH.
Qed.

(** C6, refuted as stated: the tokenizer has an error condition.  At the
    timestamp 10^18 [time.gmtime] raises [OSError], and so does
    [get_note_tokens], also on the empty string; at 2^63 it raises
    [OverflowError]. *)
Lemma get_note_tokens_raises_out_of_range :
  get_note_tokens 1000000000000000000 "" = inl OSError
  ∧ get_note_tokens (2 ^ 63) "" = inl OverflowError
  ∧ ¬ (∀ (timestamp : Z) (line : string),
         ∃ tokens, get_note_tokens timestamp line = inr tokens).
Proof.
  split; [by vm_compute|]. split; [by vm_compute|].
  intros H. destruct (H 1000000000000000000 "") as [tokens Htok].
  by vm_compute in Htok.
Qed.

(** C6, amended: at a timestamp that [time.gmtime] accepts,
    [get_note_tokens] returns on every text the word tokens in
    first-occurrence order, then the hashtag tokens in first-occurrence
    order, then the five temporal tokens made of the calendar fields of the
    timestamp; no token occurs twice; and on the empty string it returns the
    five temporal tokens and nothing else.  The calendar fields are those of
    the UTC hour that contains the timestamp.  The word tokens are the matches
    of the word pattern lower-cased under the prefix [w_]: non-empty runs of
    word characters, a text of word characters being its own single match
    and a non-word character splitting the text; the hashtag tokens are
    likewise the matches of the hashtag pattern: none in a text without
    "#", a "#" followed by class characters being its own single match,
    and a character outside the class splitting the text. *)
Theorem get_note_tokens_ordered_unique (timestamp : Z) (line : string)
    (note_time : struct_time) :
  gmtime timestamp = inr note_time → ascii_text line = true →
  get_note_tokens timestamp line =
    inr (ordered_unique (word_tokens line) ++ ordered_unique (tag_tokens line) ++
         [ "year_" +:+ str (tm_year note_time);
           "month_" +:+ str (tm_mon note_time);
           "day_" +:+ str (tm_mday note_time);
           "hour_" +:+ str (tm_hour note_time);
           "weekday_" +:+ str (tm_wday note_time) ])
  ∧ (∀ tokens, get_note_tokens timestamp line = inr tokens → NoDup tokens)
  ∧ get_note_tokens timestamp "" =
      inr [ "year_" +:+ str (tm_year note_time);
            "month_" +:+ str (tm_mon note_time);
            "day_" +:+ str (tm_mday note_time);
            "hour_" +:+ str (tm_hour note_time);
            "weekday_" +:+ str (tm_wday note_time) ]
  ∧ utc_fields timestamp note_time
  ∧ word_tokens line = (λ part, "w_" +:+ lower part) <$> findall_word line
  ∧ tag_tokens line = (λ part, "w_" +:+ lower part) <$> findall_tag line
  ∧ (∀ p, p ∈ findall_word line →
       p ≠ EmptyString ∧ all_chars Char.is_word p = true)
  ∧ (line ≠ EmptyString → all_chars Char.is_word line = true →
       findall_word line = [line])
  ∧ (∀ a b c, line = a +:+ String c b → Char.is_word c = false →
       findall_word line = findall_word a ++ findall_word b)
  ∧ (all_chars (λ c, negb (Char.eqb c "#")) line = true →
       findall_tag line = [])
  ∧ findall_tag "#" = []
  ∧ (∀ run, line = "#" +:+ run →
       run ≠ EmptyString → all_chars Char.is_tag run = true →
       findall_tag line = [line])
  ∧ (∀ a b c, line = a +:+ String c b → Char.is_tag c = false →
       findall_tag line = findall_tag a ++ findall_tag (String c b))
  ∧ get_note_tokens 1500000000 "Buy milk, buy #Errand-1 milk #errand-1" =
      inr [ "w_buy"; "w_milk"; "w_errand"; "w_1"; "w_#errand-1";
            "year_2017"; "month_7"; "day_14"; "hour_2"; "weekday_4" ]
  ∧ get_note_tokens (-1) "#a ##B_c #" =
      inr [ "w_a"; "w_b_c"; "w_#a"; "w_#b_c";
            "year_1969"; "month_12"; "day_31"; "hour_23"; "weekday_2" ]
  ∧ get_note_tokens 1456704000 "a_b c-d #c-d" =
      inr [ "w_a_b"; "w_c"; "w_d"; "w_#c-d";
            "year_2016"; "month_2"; "day_29"; "hour_0"; "weekday_0" ].
Proof.
  intros Hr _.
  split. { rewrite (get_note_tokens_eq _ _ _ Hr). by rewrite (temporal_tokens_inr _ _ Hr). }
  split. { apply NoDup_get_note_tokens. }
  split. { unfold get_note_tokens. by rewrite Hr. }
  split. { by apply gmtime_utc_fields. }
  split. { unfold word_tokens, get_word_key. apply list_fmap_ext.
           intros _ part _. by rewrite lower_lower. }
  split. { unfold tag_tokens, get_word_key. apply list_fmap_ext.
           intros _ part _. by rewrite lower_lower. }
  split. { intros p. by apply findall_word_from_chars. }
  split. { apply findall_word_run. }
  split. { intros a b c ->. apply findall_word_from_split. }
  split. { apply findall_tag_no_hash. }
  split. { done. }
  split. { intros run ->. apply findall_tag_run. }
  split. { intros a b c ->. apply findall_tag_from_split. }
  repeat split; by vm_compute.
Qed.

Lemma get_note_tokens_ordered_unique_witness :
  get_note_tokens 300 "B a #t b A #T" =
    inr [ "w_b"; "w_a"; "w_t"; "w_#t";
          "year_1970"; "month_1"; "day_1"; "hour_0"; "weekday_3" ].
Proof.
  destruct (get_note_tokens_ordered_unique 300 "B a #t b A #T" (calendar 300))
    as [Heq _]; [by vm_compute|by vm_compute|].
  rewrite Heq. by vm_compute.
Defined.

(** C7. The hashtag pattern's class is written [[A-z0-9-_]]: the range from
    "A" to "z" also covers the six characters between "Z" and "a".  On
    the text "#a^b" the tokenizer produces the tag token "#a^b", whose
    third character is neither alphanumeric nor a hyphen nor an underscore. *)
Theorem tag_token_with_caret :
  findall_tag "#a^b" = ["#a^b"]
  ∧ get_note_tokens 0 "#a^b" =
      inr ["w_a"; "w_b"; "w_#a^b";
           "year_1970"; "month_1"; "day_1"; "hour_0"; "weekday_3"]
  ∧ Char.is_tag "^" = true
  ∧ (Char.is_alnum "^" || Char.eqb "^" "-" || Char.eqb "^" "_") = false.
Proof. repeat split; by vm_compute. Qed.

(** * Deleting a note *)

(** C9. Deleting at a timestamp whose note key is absent returns without
    error and leaves the store as it was; when a delete returns, the same
    delete issued again returns and changes nothing; and on a well-formed
    store a delete always returns. *)
Theorem delete_missing_note_is_noop (db : redis) (timestamp : Z) :
  (db !! get_note_key (str timestamp) = None →
     delete_note timestamp db = Ok tt db)
  ∧ (∀ db', delete_note timestamp db = Ok tt db' →
       delete_note timestamp db' = Ok tt db')
  ∧ (store_wf db →
       ∃ db', delete_note timestamp db = Ok tt db' ∧
              delete_note timestamp db' = Ok tt db').
Proof.
  assert (∀ db', delete_note timestamp db = Ok tt db' →
    delete_note timestamp db' = Ok tt db') as Htwice.
  { intros db' Hrun. apply delete_redis_note_absent.
    revert Hrun. unfold delete_note, delete_redis_note, mbind, M_bind.
    unfold Redis.exists_ at 1. case_bool_decide as Hpresent; simpl.
    - destruct (Redis.get _ db) as [reply db1|]; [|done].
      destruct (decode reply db1) as [line db2|]; [|done].
      destruct (lift _ db2) as [tokens db2'|]; [|done].
      destruct (for_each _ _ db2') as [[] db3|]; [|done].
      unfold Redis.delete. intros [= <-]. apply lookup_delete_eq.
    - intros [= <-]. by apply eq_None_not_Some. }
  split; [apply delete_redis_note_absent|]. split; [done|].
  intros Hwf.
  destruct (delete_redis_note_ok db timestamp Hwf) as (db' & Hrun & _).
  exists db'. split; [done|]. by apply Htwice.
Qed.

Lemma delete_missing_note_is_noop_witness :
  delete_note 1 ∅ = Ok tt ∅
  ∧ ∃ db', delete_note 1 (after [Save 1 "foo"]) = Ok tt db' ∧
           delete_note 1 db' = Ok tt db'.
Proof.
  split.
  - by apply (delete_missing_note_is_noop ∅ 1).
  - apply (delete_missing_note_is_noop (after [Save 1 "foo"]) 1).
    apply consistent_after. by vm_compute.
Defined.

(** * Temporal postings *)

(** C3, refuted as stated: after saving the empty note at timestamp 0 no
    posting is stored under "w_year_1970". *)
Lemma temporal_key_has_no_word_prefix :
  ¬ (∀ (db db' : redis) (timestamp : Z) (note : string)
       (note_time : struct_time),
       gmtime timestamp = inr note_time →
       save_note timestamp note db = Ok tt db' →
       str timestamp ∈ postings db' ("w_year_" +:+ str (tm_year note_time))
       ∧ str timestamp ∈ postings db' ("w_month_" +:+ str (tm_mon note_time))
       ∧ str timestamp ∈ postings db' ("w_day_" +:+ str (tm_mday note_time))
       ∧ str timestamp ∈ postings db' ("w_hour_" +:+ str (tm_hour note_time))
       ∧ str timestamp ∈ postings db' ("w_weekday_" +:+ str (tm_wday note_time))).
Proof.
  intros H.
  destruct (H ∅ (after [Save 0 ""]) 0 "" (calendar 0)) as [Hyear _];
    [by vm_compute|by vm_compute|].
  assert (postings (after [Save 0 ""]) ("w_year_" +:+ str (tm_year (calendar 0))) = ∅)
    as Hempty by by vm_compute.
  rewrite Hempty in Hyear. by apply not_elem_of_empty in Hyear.
Qed.

(** C3, amended: a save on a well-formed store at a timestamp that
    [time.gmtime] accepts returns, and the five temporal postings of the
    note are stored under the keys [year_<YYYY>], [month_<M>], [day_<D>],
    [hour_<H>] and [weekday_<W>], none of which carries the [w_] prefix of
    the word and hashtag keys. *)
Theorem temporal_postings_keys (db : redis) (timestamp : Z) (note : string)
    (note_time : struct_time) :
  store_wf db → gmtime timestamp = inr note_time →
  ∃ db', save_note timestamp note db = Ok tt db'
    ∧ str timestamp ∈ postings db' ("year_" +:+ str (tm_year note_time))
    ∧ str timestamp ∈ postings db' ("month_" +:+ str (tm_mon note_time))
    ∧ str timestamp ∈ postings db' ("day_" +:+ str (tm_mday note_time))
    ∧ str timestamp ∈ postings db' ("hour_" +:+ str (tm_hour note_time))
    ∧ str timestamp ∈ postings db' ("weekday_" +:+ str (tm_wday note_time))
    ∧ ∀ t, t ∈ [ "year_" +:+ str (tm_year note_time);
                 "month_" +:+ str (tm_mon note_time);
                 "day_" +:+ str (tm_mday note_time);
                 "hour_" +:+ str (tm_hour note_time);
                 "weekday_" +:+ str (tm_wday note_time) ] →
        glob_match (get_word_key "*") t = false
        ∧ ∀ w, t ≠ get_word_key w.
Proof.
  intros Hwf Hr.
  assert (in_gmtime_range timestamp) as Hin by by exists note_time.
  destruct (add_redis_note_ok db timestamp note Hin Hwf)
    as (db' & Hrun & _ & Hp & _).
  exists db'. split; [done|].
  rewrite <-(temporal_tokens_inr _ _ Hr).
  assert (∀ t, t ∈ temporal_tokens timestamp → str timestamp ∈ postings db' t)
    as Hpost.
  { intros t Ht. rewrite Hp, decide_True; [set_solver|].
    apply elem_of_get_note_tokens. auto. }
  repeat (split; [apply Hpost; rewrite (temporal_tokens_inr _ _ Hr); set_solver|]).
  intros t Ht. apply temporal_not_word_key in Ht.
  split; [by rewrite glob_word_keys|]. by intros w ->.
Qed.

Lemma temporal_postings_keys_witness :
  ∃ db', save_note 1500000000 "Buy milk" (after scenario) = Ok tt db'
    ∧ "1500000000" ∈ postings db' "year_2017"
    ∧ "1500000000" ∈ postings db' "weekday_4".
Proof.
  destruct (temporal_postings_keys (after scenario) 1500000000 "Buy milk"
              (calendar 1500000000))
    as (db' & Hrun & Hy & _ & _ & _ & Hw & _).
  - apply consistent_after. by vm_compute.
  - by vm_compute.
  - exists db'. split; [done|]. split; [exact Hy|exact Hw].
Defined.

(** * The postings invariant *)

(** C2, refuted as stated: a save over a stored note leaves the postings of
    the old text behind.  After saving "foo" and then "bar" at timestamp
    1, that timestamp is still in the postings of "w_foo". *)
Lemma overwriting_save_breaks_invariant :
  ¬ (∀ (calls : list call) (db : redis),
       run_calls calls ∅ = Ok tt db → index_invariant db).
Proof.
  intros H.
  pose (calls := [Save 1 "foo"; Save 1 "bar"]).
  assert (index_invariant (after calls)) as Hinv by (apply (H calls); by vm_compute).
  destruct (Hinv "w_foo" 1) as [Hstale _].
  destruct Hstale as (text & Htext & Hin).
  { assert (postings (after calls) "w_foo" = {[str 1]}) as -> by by vm_compute.
    by apply elem_of_singleton. }
  assert (stored_note (after calls) 1 = Some "bar") as Hbar by by vm_compute.
  rewrite Hbar in Htext. injection Htext as <-.
  assert (bool_decide ("w_foo" ∈ get_note_tokens 1 "bar") = false) as Hno
    by by vm_compute.
  by apply bool_decide_eq_false in Hno.
Qed.

(** C2, amended: in a sequence of calls from the empty store in which no
    save ([update]'s included) is issued while a note is stored at its
    timestamp, after every call that returns a timestamp is in the postings
    of a token iff the note stored at it tokenizes to include the token; and
    every call returns when the timestamps saved at are ones that
    [time.gmtime] accepts. *)
Theorem index_invariant_of_disciplined_calls (calls pre : list call) :
  disciplined calls ∅ = true → pre `prefix_of` calls →
  (∀ db, run_calls pre ∅ = Ok tt db → index_invariant db)
  ∧ (Forall call_in_range pre →
       ∃ db, run_calls pre ∅ = Ok tt db ∧ index_invariant db).
Proof.
  intros Hd [suf ->]. apply disciplined_app in Hd.
  assert (∀ db, run_calls pre ∅ = Ok tt db → index_invariant db) as Hinv.
  { intros db Hrun.
    by destruct (run_calls_consistent pre ∅ db consistent_empty Hd Hrun). }
  split; [done|]. intros Hr.
  destruct (run_calls_returns pre ∅ store_wf_empty Hr) as (db & Hrun & _).
  exists db. split; [done|]. by apply Hinv.
Qed.

Lemma index_invariant_of_disciplined_calls_witness :
  ∃ db,
    run_calls (scenario ++ [Update 100 100 "buy tea"; Delete 200]) ∅ = Ok tt db
    ∧ index_invariant db.
Proof.
  apply (index_invariant_of_disciplined_calls
           (scenario ++ [Update 100 100 "buy tea"; Delete 200; Update 300 400 "x"])).
  - by vm_compute.
  - by exists [Update 300 400 "x"].
  - repeat constructor; by eexists; vm_compute.
Defined.

(** * Search *)

(** C1, refuted as stated: a search for a word no note contains returns a
    sequence of length one. *)
Lemma empty_search_returns_a_placeholder :
  ¬ (∀ (db : redis) (request : search_request),
       sorted_timestamps db request = [] →
       ∃ db', find_redis_notes request db = Ok [] db').
Proof.
  intros H.
  destruct (H ∅ {| inclusion_terms := ["nonexistentword"];
                   exclusion_terms := [] |}) as [db' Hrun]; [by vm_compute|].
  vm_compute in Hrun. discriminate Hrun.
Qed.

(** C1, amended: when the resolved, sorted timestamps are empty the search
    returns the one-element sequence [[(None, None)]]. *)
Theorem find_nothing_returns_placeholder (db : redis) (request : search_request) :
  store_wf db → sorted_timestamps db request = [] →
  find_redis_notes request db = Ok [(None, None)] db.
Proof.
  intros Hwf Hempty. rewrite find_redis_notes_resolved; [|done|].
  - unfold resolved_notes. by rewrite Hempty.
  - intros ts Hts. apply elem_of_sorted_timestamps in Hts; [|done].
    rewrite Hempty in Hts. by apply elem_of_nil in Hts.
Qed.

Lemma find_nothing_returns_placeholder_witness :
  find_redis_notes
    {| inclusion_terms := ["nonexistentword"]; exclusion_terms := [] |}
    (after scenario)
  = Ok [(None, None)] (after scenario).
Proof.
  apply find_nothing_returns_placeholder.
  - apply consistent_after. by vm_compute.
  - by vm_compute.
Defined.

(** C4, refuted as stated: the search does not always return the resolved
    timestamps zipped with the fetched texts.  After saving "foo" and then
    "bar" at timestamp 1, deleting it and saving "foo" at timestamp 2, the
    inclusion term "foo" resolves to the timestamps 1 and 2; no note is
    stored at 1, and the search raises on the text it fetched for it. *)
Lemma search_raises_on_unfetchable_timestamp :
  ¬ (∀ (calls : list call) (db : redis) (request : search_request),
       run_calls calls ∅ = Ok tt db →
       ∃ notes, find_redis_notes request db = Ok notes db)
  ∧ sorted_timestamps
      (after [Save 1 "foo"; Save 1 "bar"; Delete 1; Save 2 "foo"])
      {| inclusion_terms := ["foo"]; exclusion_terms := [] |} = [1; 2]
  ∧ find_redis_notes {| inclusion_terms := ["foo"]; exclusion_terms := [] |}
      (after [Save 1 "foo"; Save 1 "bar"; Delete 1; Save 2 "foo"])
    = Raise AttributeError.
Proof.
  split; [|split; by vm_compute].
  intros H.
  pose (calls := [Save 1 "foo"; Save 1 "bar"; Delete 1; Save 2 "foo"]).
  destruct (H calls (after calls)
              {| inclusion_terms := ["foo"]; exclusion_terms := [] |})
    as [notes Hrun]; [by vm_compute|].
  vm_compute in Hrun. discriminate Hrun.
Qed.

(** C4, amended: on a well-formed store, for a request whose resolved
    timestamps all have a stored note (every request, when every posting
    refers to a stored note), the search returns the resolved notes: the
    intersection of the inclusion postings minus the union of the exclusion
    postings, the intersection alone, all note timestamps minus the union,
    or all note timestamps, according to which term lists are non-empty;
    converted to integers, sorted ascending and zipped with the stored
    texts. *)
Theorem find_redis_notes_resolves (db : redis) (request : search_request) :
  store_wf db → fetchable db request →
  find_redis_notes request db = Ok (resolved_notes db request) db
  ∧ (no_dangling db → ∀ request', fetchable db request')
  ∧ resolve db request =
      match get_word_key <$> inclusion_terms request,
            get_word_key <$> exclusion_terms request with
      | (_ :: _) as inclusion, (_ :: _) as exclusion =>
          intersect_postings db inclusion ∖ union_postings db exclusion
      | (_ :: _) as inclusion, [] => intersect_postings db inclusion
      | [], (_ :: _) as exclusion =>
          all_note_timestamps db ∖ union_postings db exclusion
      | [], [] => all_note_timestamps db
      end
  ∧ (∀ m tokens, m ∈ intersect_postings db tokens ↔
       tokens ≠ [] ∧ ∀ t, t ∈ tokens → m ∈ postings db t)
  ∧ (∀ m tokens, m ∈ union_postings db tokens ↔
       ∃ t, t ∈ tokens ∧ m ∈ postings db t)
  ∧ (∀ m, m ∈ all_note_timestamps db ↔
       ∃ ts : Z, m = str ts ∧ is_Some (stored_note db ts))
  ∧ Sorted Z.le (sorted_timestamps db request)
  ∧ (∀ ts, ts ∈ sorted_timestamps db request ↔ str ts ∈ resolve db request)
  ∧ (sorted_timestamps db request ≠ [] →
       resolved_notes db request =
       zip (Some <$> sorted_timestamps db request)
           (stored_note db <$> sorted_timestamps db request)).
Proof.
  intros Hwf Hfetch.
  split; [|split; [|split; [|split; [|split; [|split; [|split; [|split]]]]]]].
  - by apply find_redis_notes_resolved.
  - intros Hnd request'. by apply no_dangling_fetchable.
  - unfold resolve.
    by destruct (get_word_key <$> inclusion_terms request),
      (get_word_key <$> exclusion_terms request).
  - intros m [|t tokens]; simpl.
    + split; [set_solver|]. by intros [? _].
    + rewrite elem_of_filter, Forall_forall. split.
      * intros [Hall Hm]. split; [done|].
        intros t' [->|Ht']%elem_of_cons; auto.
      * intros [_ Hall]. split; [|apply Hall; left].
        intros t' Ht'. apply Hall. by right.
  - intros m tokens. unfold union_postings.
    rewrite elem_of_union_list. split.
    + intros (X & (t & -> & Ht)%list_elem_of_fmap & Hm). eauto.
    + intros (t & Ht & Hm). exists (postings db t). split; [|done].
      apply list_elem_of_fmap. eauto.
  - intros m. by apply elem_of_all_note_timestamps.
  - apply Sorted_merge_sort. apply _.
  - intros ts. by apply elem_of_sorted_timestamps.
  - unfold resolved_notes. by destruct (sorted_timestamps db request).
Qed.

Lemma find_redis_notes_resolves_witness :
  find_redis_notes {| inclusion_terms := ["buy"]; exclusion_terms := ["milk"] |}
    (after scenario)
  = Ok [(Some 300, Some "buy bread #errand")] (after scenario).
Proof.
  destruct (find_redis_notes_resolves (after scenario)
              {| inclusion_terms := ["buy"]; exclusion_terms := ["milk"] |})
    as [Hfind _].
  - apply consistent_after. by vm_compute.
  - apply no_dangling_fetchable; [apply consistent_after; by vm_compute|].
    apply consistent_no_dangling, consistent_after. by vm_compute.
  - rewrite Hfind. by vm_compute.
Defined.

Lemma word_key_lower (w : string) : get_word_key (lower w) = get_word_key w.
Proof. unfold get_word_key. by rewrite lower_lower. Qed.

Lemma resolve_single (db : redis) (w : string) (m : string) :
  m ∈ resolve db {| inclusion_terms := [w]; exclusion_terms := [] |} ↔
  m ∈ postings db (get_word_key w).
Proof.
  unfold resolve. simpl. rewrite elem_of_filter. split; [by intros [_ ?]|].
  intros Hm. split; [constructor|done].
Qed.

(** C5, refuted as stated: a posting left behind by an overwriting save and
    a delete makes the search raise.  After saving "foo" and then "bar"
    at timestamp 1 and deleting it, timestamp 1 is still in the postings of
    "w_foo"; saving "foo" at timestamp 2 and searching for it fetches a
    missing note. *)
Lemma round_trip_raises_on_dangling_posting :
  ¬ (∀ (calls : list call) (db db' : redis) (timestamp : Z) (text w : string),
       run_calls calls ∅ = Ok tt db →
       occurs_in w text →
       save_note timestamp text db = Ok tt db' →
       ∃ notes,
         find_redis_notes {| inclusion_terms := [w]; exclusion_terms := [] |} db'
           = Ok notes db'
         ∧ (Some timestamp, Some text) ∈ notes).
Proof.
  intros H.
  pose (calls := [Save 1 "foo"; Save 1 "bar"; Delete 1]).
  destruct (H calls (after calls) (after (calls ++ [Save 2 "foo"])) 2 "foo" "foo")
    as (notes & Hrun & _).
  - by vm_compute.
  - left. unfold findall_word. simpl. by left.
  - by vm_compute.
  - vm_compute in Hrun. discriminate Hrun.
Qed.

(** C5, amended: on a well-formed store in which every posting refers to a
    stored note, saving a note at a timestamp that [time.gmtime] accepts
    and then searching for a word or hashtag that occurs in its text returns
    a sequence containing the note. *)
Theorem save_then_find (db : redis) (timestamp : Z) (text w : string) :
  store_wf db → no_dangling db → in_gmtime_range timestamp →
  occurs_in w text →
  ∃ db' notes,
    save_note timestamp text db = Ok tt db'
    ∧ find_redis_notes {| inclusion_terms := [w]; exclusion_terms := [] |} db'
        = Ok notes db'
    ∧ (Some timestamp, Some text) ∈ notes.
Proof.
  intros Hwf Hnd Hr Hw.
  destruct (add_redis_note_ok db timestamp text Hr Hwf)
    as (db' & Hrun & Hwf' & Hp & Hn).
  assert (no_dangling db') as Hnd' by by eapply no_dangling_add.
  exists db', (resolved_notes db' {| inclusion_terms := [w]; exclusion_terms := [] |}).
  split; [done|]. split.
  - apply find_redis_notes_resolved; [done|]. by apply no_dangling_fetchable.
  - apply elem_of_resolved_notes; [done|]. split.
    + apply resolve_single. rewrite Hp, decide_True; [set_solver|].
      rewrite <-word_key_lower. by apply word_key_in_tokens.
    + by rewrite Hn, decide_True.
Qed.

Lemma save_then_find_witness :
  ∃ db' notes,
    save_note 400 "Call Bob #Errand" (after scenario) = Ok tt db'
    ∧ find_redis_notes {| inclusion_terms := ["#Errand"]; exclusion_terms := [] |} db'
        = Ok notes db'
    ∧ (Some 400, Some "Call Bob #Errand") ∈ notes.
Proof.
  apply (save_then_find (after scenario) 400 "Call Bob #Errand" "#Errand").
  - apply consistent_after. by vm_compute.
  - apply consistent_no_dangling, consistent_after. by vm_compute.
  - by eexists; vm_compute.
  - right. by vm_compute; left.
Defined.

(** * Updating a note *)




(** * Common words *)

(** C10, refuted as stated: a temporal token appears among the common words
    when a note contains it as a word.  The note "year_1970" saved at
    timestamp 0 has the temporal token "year_1970" and the word token
    "w_year_1970", which is listed with its prefix stripped. *)
Lemma common_words_may_list_a_temporal_token :
  ¬ (∀ (calls : list call) (db : redis) (words : gset string)
       (timestamp : Z) (t : string),
       run_calls calls ∅ = Ok tt db →
       get_common_words db = Ok words db →
       t ∈ temporal_tokens timestamp → t ∉ words).
Proof.
  intros H.
  pose (calls := [Save 0 "year_1970"]).
  apply (H calls (after calls) {["year_1970"]} 0 "year_1970").
  - by vm_compute.
  - by vm_compute.
  - by left.
  - by apply elem_of_singleton.
Qed.

(** C10, amended: [get_common_words] returns every key matching [w_*] with
    its first two characters stripped, and nothing else; a hashtag key is
    listed with its leading "#"; the keys of the temporal postings do not
    match the pattern, so a word is listed only if the key made of [w_] and
    that word is in the store. *)
Theorem get_common_words_strips_prefix (db : redis) :
  ∃ words, get_common_words db = Ok words db
    ∧ (∀ x, x ∈ words ↔
         ∃ key, is_Some (db !! key)
                ∧ glob_match (get_word_key "*") key = true
                ∧ x = slice_from 2 key)
    ∧ (∀ tag, is_Some (db !! get_word_key (String "#" tag)) →
         String "#" (lower tag) ∈ words)
    ∧ (∀ timestamp t, t ∈ temporal_tokens timestamp →
         glob_match (get_word_key "*") t = false)
    ∧ (∀ x, x ∈ words → is_Some (db !! ("w_" +:+ x))).
Proof.
  eexists. split; [reflexivity|].
  assert (∀ x, x ∈ (list_to_set (slice_from 2 <$>
      filter (λ key, glob_match (get_word_key "*") key) (elements (dom db)))
        : gset string) ↔
    ∃ key, is_Some (db !! key) ∧ glob_match (get_word_key "*") key = true
           ∧ x = slice_from 2 key) as Hwords.
  { intros x. rewrite elem_of_list_to_set, list_elem_of_fmap. split.
    - intros (key & -> & [Hk Hdom]%list_elem_of_filter).
      apply elem_of_elements, elem_of_dom in Hdom.
      exists key. split; [done|]. split; [by apply Is_true_true|done].
    - intros (key & Hdom & Hk & ->). exists key. split; [done|].
      apply list_elem_of_filter. split; [by apply Is_true_true|].
      by apply elem_of_elements, elem_of_dom. }
  split; [exact Hwords|]. split; [|split].
  - intros tag Htag. apply Hwords.
    exists (get_word_key (String "#" tag)). split; [done|].
    split; [by rewrite glob_word_keys|done].
  - intros timestamp t Ht. rewrite glob_word_keys.
    by eapply temporal_not_word_key.
  - intros x (key & Hdom & Hk & ->)%Hwords.
    rewrite glob_word_keys in Hk. apply has_prefix_spec in Hk as [r ->].
    done.
Qed.

(** * Any sequence of calls *)

Lemma run_ok_inj {A} (m : M A) (db : redis) (a b : A) (db1 db2 : redis) :
  m db = Ok a db1 → m db = Ok b db2 → a = b ∧ db1 = db2.
Proof. intros H1 H2. rewrite H1 in H2. by injection H2. Qed.

Lemma no_empty_sets_empty : no_empty_sets ∅.
Proof. intros k. by rewrite lookup_empty. Qed.

Lemma index_complete_empty : index_complete ∅.
Proof. intros ts text t. unfold stored_note. by rewrite lookup_empty. Qed.

Lemma add_redis_note_no_empty_sets (db db' : redis) (timestamp : Z) (note : string) :
  store_wf db → no_empty_sets db →
  add_redis_note timestamp note db = Ok tt db' → no_empty_sets db'.
Proof.
  intros Hwf Hne Hrun k.
  pose proof (add_redis_note_in_range _ _ _ _ Hrun) as Hr.
  destruct (add_redis_note_lookup db timestamp note Hr Hwf)
    as (db1 & Hrun1 & Hlk).
  destruct (run_ok_inj _ _ _ _ _ _ Hrun Hrun1) as [_ ->].
  rewrite Hlk. repeat case_decide; [done| |apply Hne].
  unfold sadd_value. intros [= Hs]. set_solver.
Qed.

Lemma delete_redis_note_no_empty_sets (db db' : redis) (timestamp : Z) :
  store_wf db → no_empty_sets db →
  delete_redis_note timestamp db = Ok tt db' → no_empty_sets db'.
Proof.
  intros Hwf Hne Hrun k.
  destruct (stored_note db timestamp) as [line|] eqn:Hnote.
  - destruct (delete_redis_note_lookup db timestamp line Hwf Hnote)
      as (db1 & Hrun1 & Hlk).
    destruct (run_ok_inj _ _ _ _ _ _ Hrun Hrun1) as [_ ->].
    rewrite Hlk. repeat case_decide; [done| |apply Hne].
    unfold srem_value. destruct (db !! k) as [[|s]|] eqn:E; try done.
    case_decide; [done|]. congruence.
  - rewrite delete_redis_note_absent in Hrun by by apply stored_note_None.
    injection Hrun as <-. apply Hne.
Qed.

Section completeness.
Context (db db' : redis) (timestamp : Z).

Lemma index_complete_add (note : string) :
  index_complete db →
  (∀ k, postings db' k =
     if decide (k ∈ get_note_tokens timestamp note)
     then {[str timestamp]} ∪ postings db k else postings db k) →
  (∀ ts, stored_note db' ts =
     if decide (timestamp = ts) then Some note else stored_note db ts) →
  index_complete db'.
Proof.
  intros Hc Hp Hn ts text t. rewrite Hp, Hn.
  destruct (decide (timestamp = ts)) as [<-|Hne].
  - intros [= <-] Ht. rewrite decide_True by done. set_solver.
  - intros Htext Ht. pose proof (Hc ts text t Htext Ht). case_decide; set_solver.
Qed.

Lemma index_complete_delete :
  index_complete db →
  (∀ k, postings db' k =
     match stored_note db timestamp with
     | Some line =>
         if decide (k ∈ get_note_tokens timestamp line)
         then postings db k ∖ {[str timestamp]} else postings db k
     | None => postings db k
     end) →
  (∀ ts, stored_note db' ts =
     if decide (timestamp = ts) then None else stored_note db ts) →
  index_complete db'.
Proof.
  intros Hc Hp Hn ts text t. rewrite Hp, Hn.
  destruct (decide (timestamp = ts)) as [<-|Hne]; [done|].
  intros Htext Ht. pose proof (Hc ts text t Htext Ht) as Hin.
  destruct (stored_note db timestamp); [|done]. case_decide; [|done].
  apply elem_of_difference. split; [done|].
  intros Heq%elem_of_singleton. by apply str_inj in Heq.
Qed.

End completeness.

Lemma add_redis_note_sound (db db' : redis) (timestamp : Z) (note : string) :
  sound_store db → add_redis_note timestamp note db = Ok tt db' →
  sound_store db'.
Proof.
  intros (Hwf & Hne & Hc) Hrun0.
  pose proof (add_redis_note_in_range _ _ _ _ Hrun0) as Hr.
  destruct (add_redis_note_ok db timestamp note Hr Hwf)
    as (db1 & Hrun & Hwf' & Hp & Hn).
  destruct (run_ok_inj _ _ _ _ _ _ Hrun0 Hrun) as [_ ->].
  split; [done|]. split.
  - by apply (add_redis_note_no_empty_sets db db1 timestamp note).
  - by eapply index_complete_add.
Qed.

Lemma delete_redis_note_sound (db db' : redis) (timestamp : Z) :
  sound_store db → delete_redis_note timestamp db = Ok tt db' →
  sound_store db'.
Proof.
  intros (Hwf & Hne & Hc) Hrun0.
  destruct (delete_redis_note_ok db timestamp Hwf)
    as (db1 & Hrun & Hwf' & Hp & Hn).
  destruct (run_ok_inj _ _ _ _ _ _ Hrun0 Hrun) as [_ ->].
  split; [done|]. split.
  - by apply (delete_redis_note_no_empty_sets db db1 timestamp).
  - by eapply index_complete_delete.
Qed.

Lemma run_call_sound (c : call) (db db' : redis) :
  sound_store db → run_call c db = Ok tt db' → sound_store db'.
Proof.
  intros Hs. destruct c as [ts note|ts|ts1 ts2 note]; simpl.
  - by apply add_redis_note_sound.
  - by apply delete_redis_note_sound.
  - unfold update_note, delete_note, save_note, mbind, M_bind.
    destruct (delete_redis_note ts1 db) as [[] db1|e] eqn:Hrun1; [|done].
    apply add_redis_note_sound. by eapply delete_redis_note_sound.
Qed.

Lemma run_calls_sound (calls : list call) (db db' : redis) :
  sound_store db → run_calls calls db = Ok tt db' → sound_store db'.
Proof.
  revert db. induction calls as [|c calls IH]; intros db Hs.
  - unfold run_calls. simpl. by intros [= <-].
  - rewrite run_calls_cons.
    destruct (run_call c db) as [[] db1|e] eqn:Hrun; [|done].
    apply IH. by eapply run_call_sound.
Qed.

Lemma sound_store_empty : sound_store ∅.
Proof.
  split; [apply store_wf_empty|].
  split; [apply no_empty_sets_empty|apply index_complete_empty].
Qed.

Lemma sound_after (calls : list call) : sound_store (after calls).
Proof.
  unfold after.
  destruct (run_calls calls ∅) as [[] db|e] eqn:Hrun; [|apply sound_store_empty].
  by eapply run_calls_sound; [apply sound_store_empty|].
Qed.

Lemma after_returns (calls : list call) (db : redis) :
  run_calls calls ∅ = Ok tt db → after calls = db.
Proof. intros Hrun. unfold after. by rewrite Hrun. Qed.

(** What [time.gmtime] raises. *)
Lemma gmtime_raises (timestamp : Z) (e : exn) :
  gmtime timestamp = inl e → e = OverflowError ∨ e = OSError.
Proof.
  unfold gmtime. destruct (negb (fits 64 timestamp)); [intros [= <-]; by left|].
  destruct (negb (fits 32 _)); [intros [= <-]; by right|done].
Qed.

Lemma add_redis_note_raises (db : redis) (timestamp : Z) (note : string)
    (e : exn) :
  store_wf db → add_redis_note timestamp note db = Raise e →
  gmtime timestamp = inl e.
Proof.
  intros Hwf Hrun. destruct (gmtime timestamp) as [e'|note_time] eqn:Hr.
  - rewrite (add_redis_note_out_of_range db timestamp note e' Hr) in Hrun.
    by injection Hrun as ->.
  - assert (in_gmtime_range timestamp) as Hin by by exists note_time.
    destruct (add_redis_note_ok db timestamp note Hin Hwf) as (db' & Hrun' & _).
    congruence.
Qed.

Lemma run_call_raises (c : call) (db : redis) (e : exn) :
  store_wf db → run_call c db = Raise e → e = OverflowError ∨ e = OSError.
Proof.
  intros Hwf. destruct c as [ts note|ts|ts1 ts2 note]; simpl.
  - intros Hrun. eapply gmtime_raises. by eapply add_redis_note_raises.
  - destruct (delete_redis_note_ok db ts Hwf) as (db' & Hrun & _).
    unfold delete_note. congruence.
  - destruct (delete_redis_note_ok db ts1 Hwf) as (db1 & Hrun1 & Hwf1 & _).
    unfold update_note, delete_note, save_note, mbind, M_bind. rewrite Hrun1.
    intros Hrun. eapply gmtime_raises. by eapply add_redis_note_raises.
Qed.

Lemma run_calls_raises (calls : list call) (db : redis) (e : exn) :
  store_wf db → run_calls calls db = Raise e → e = OverflowError ∨ e = OSError.
Proof.
  revert db. induction calls as [|c calls IH]; intros db Hwf.
  - unfold run_calls. by simpl.
  - rewrite run_calls_cons.
    destruct (run_call c db) as [[] db1|e'] eqn:Hrun.
    + apply IH. by eapply run_call_wf.
    + intros [= ->]. by eapply run_call_raises.
Qed.

Lemma run_calls_in_range (calls : list call) (db db' : redis) :
  store_wf db → run_calls calls db = Ok tt db' → Forall call_in_range calls.
Proof.
  revert db. induction calls as [|c calls IH]; intros db Hwf; [by constructor|].
  rewrite run_calls_cons.
  destruct (run_call c db) as [[] db1|e] eqn:Hrun; [|done].
  intros Hrest. constructor.
  - by eapply run_call_in_range.
  - eapply IH; [|done]. by eapply run_call_wf.
Qed.

(** X1. A sequence of save, delete and update calls issued from the empty
    store returns exactly when every timestamp it saves at is one that
    [time.gmtime] accepts: the only exceptions are those of [time.gmtime],
    and no command is answered with WRONGTYPE.  The store a returning
    sequence leaves is well formed: strings under note keys only, sets
    elsewhere, timestamps as members. *)
Theorem calls_return_iff_in_range (calls : list call) :
  (Forall call_in_range calls ↔ ∃ db, run_calls calls ∅ = Ok tt db)
  ∧ (∀ db, run_calls calls ∅ = Ok tt db → store_wf db)
  ∧ (∀ e, run_calls calls ∅ = Raise e → e = OverflowError ∨ e = OSError).
Proof.
  split; [split|split].
  - intros Hr.
    destruct (run_calls_returns calls ∅ store_wf_empty Hr) as (db & Hrun & _).
    eauto.
  - intros [db Hrun]. by eapply run_calls_in_range; [apply store_wf_empty|].
  - intros db Hrun. by eapply run_calls_wf; [apply store_wf_empty|].
  - intros e. apply run_calls_raises, store_wf_empty.
Qed.

Lemma calls_return_iff_in_range_witness :
  (∃ db, run_calls (scenario ++ [Save 100 "tea"; Update 300 7 "x"; Delete 5]) ∅
         = Ok tt db)
  ∧ store_wf (after scenario)
  ∧ ¬ Forall call_in_range [Save 1 "a"; Save 1000000000000000000 "x"].
Proof.
  split; [|split].
  - apply (calls_return_iff_in_range
             (scenario ++ [Save 100 "tea"; Update 300 7 "x"; Delete 5])).
    repeat constructor; by eexists; vm_compute.
  - apply (calls_return_iff_in_range scenario). by vm_compute.
  - intros Hr.
    apply (calls_return_iff_in_range [Save 1 "a"; Save 1000000000000000000 "x"])
      in Hr as [db Hrun].
    by vm_compute in Hrun.
Defined.

(** X2. After any sequence of calls that returns, the index has no false
    negative: the timestamp of every stored note is in the postings of each
    of the note's tokens (stale postings can only be superfluous). *)
Theorem index_complete_after_calls (calls : list call) (db : redis) :
  run_calls calls ∅ = Ok tt db →
  ∀ (ts : Z) (text t : string),
    stored_note db ts = Some text → t ∈ get_note_tokens ts text →
    str ts ∈ postings db t.
Proof.
  intros Hrun.
  by destruct (run_calls_sound calls ∅ db sound_store_empty Hrun) as (_ & _ & Hc).
Qed.

Lemma index_complete_after_calls_witness :
  str 1 ∈ postings (after [Save 1 "foo"; Save 1 "bar"]) "w_bar".
Proof.
  apply (index_complete_after_calls [Save 1 "foo"; Save 1 "bar"]
           (after [Save 1 "foo"; Save 1 "bar"]) ltac:(by vm_compute)
           1 "bar" "w_bar").
  - by vm_compute.
  - apply (bool_decide_unpack _). by vm_compute.
Defined.

(** X3. After any sequence of calls that returns, no key holds an empty
    set: a key holds a set exactly while some timestamp is in its postings,
    and the key of a token is in the store exactly then. *)
Theorem token_key_present_iff_postings (calls : list call) (db : redis) :
  run_calls calls ∅ = Ok tt db →
  (∀ k, db !! k ≠ Some (VSet ∅))
  ∧ (∀ k, (∃ s, db !! k = Some (VSet s)) ↔ ∃ ts : Z, str ts ∈ postings db k)
  ∧ (∀ (timestamp : Z) (line t : string),
       t ∈ get_note_tokens timestamp line →
       is_Some (db !! t) ↔ ∃ ts : Z, str ts ∈ postings db t).
Proof.
  intros Hrun.
  destruct (run_calls_sound calls ∅ db sound_store_empty Hrun)
    as (Hwf & Hne & _).
  assert (∀ k, (∃ s, db !! k = Some (VSet s)) ↔
               ∃ ts : Z, str ts ∈ postings db k) as Hsets.
  { intros k. unfold postings. split.
    - intros [s E]. rewrite E.
      destruct (set_choose_or_empty s) as [[m Hm]|Hs'].
      + destruct (wf_members _ Hwf k s m E Hm) as [ts ->]. eauto.
      + apply leibniz_equiv in Hs' as ->. by apply Hne in E.
    - intros [ts Hin]. destruct (db !! k) as [[v|s]|]; [set_solver|eauto|set_solver]. }
  split; [exact Hne|]. split; [exact Hsets|].
  intros timestamp line t Ht. rewrite <-Hsets.
  pose proof (wf_token_not_string db t line timestamp Hwf Ht) as Hs.
  destruct (db !! t) as [[v|s]|] eqn:E; try done.
  - split; [by eauto|by intros _].
  - split; [by intros [? ?]|by intros [? ?]].
Qed.

Lemma token_key_present_iff_postings_witness :
  (after [Save 1 "foo"; Delete 1]) !! "w_foo" ≠ Some (VSet ∅)
  ∧ (is_Some (after scenario !! "w_milk") ↔
     ∃ ts : Z, str ts ∈ postings (after scenario) "w_milk").
Proof.
  split.
  - by apply (token_key_present_iff_postings [Save 1 "foo"; Delete 1]
                (after [Save 1 "foo"; Delete 1]) ltac:(by vm_compute)).
  - apply (token_key_present_iff_postings scenario (after scenario)
             ltac:(by vm_compute)) with (timestamp := 100)
                                        (line := "buy milk #errand").
    apply (bool_decide_unpack _). by vm_compute.
Defined.

(** * Search on a consistent store *)

Lemma elem_of_intersect_postings (db : redis) (m : string) (tokens : list string) :
  m ∈ intersect_postings db tokens ↔
  tokens ≠ [] ∧ ∀ t, t ∈ tokens → m ∈ postings db t.
Proof.
  destruct tokens as [|t tokens]; simpl.
  - split; [set_solver|]. by intros [? _].
  - rewrite elem_of_filter, Forall_forall. split.
    + intros [Hall Hm]. split; [done|].
      intros t' [->|Ht']%elem_of_cons; auto.
    + intros [_ Hall]. split; [|apply Hall; left].
      intros t' Ht'. apply Hall. by right.
Qed.

Lemma elem_of_union_postings (db : redis) (m : string) (tokens : list string) :
  m ∈ union_postings db tokens ↔ ∃ t, t ∈ tokens ∧ m ∈ postings db t.
Proof.
  unfold union_postings. rewrite elem_of_union_list. split.
  - intros (X & (t & -> & Ht)%list_elem_of_fmap & Hm). eauto.
  - intros (t & Ht & Hm). exists (postings db t). split; [|done].
    apply list_elem_of_fmap. eauto.
Qed.

Lemma elem_of_resolve (db : redis) (request : search_request) (m : string) :
  m ∈ resolve db request ↔
  (if bool_decide (inclusion_terms request = [])
   then m ∈ all_note_timestamps db
   else ∀ w, w ∈ inclusion_terms request → m ∈ postings db (get_word_key w))
  ∧ ∀ x, x ∈ exclusion_terms request → m ∉ postings db (get_word_key x).
Proof.
  assert (∀ l : list string, (∀ t, t ∈ get_word_key <$> l → m ∈ postings db t) ↔
               (∀ w, w ∈ l → m ∈ postings db (get_word_key w))) as Hall.
  { intros l. split.
    - intros H w Hw. apply H, list_elem_of_fmap. eauto.
    - intros H t (w & -> & Hw)%list_elem_of_fmap. auto. }
  assert (∀ l : list string, (m ∉ union_postings db (get_word_key <$> l)) ↔
               (∀ x, x ∈ l → m ∉ postings db (get_word_key x))) as Hnone.
  { intros l. rewrite elem_of_union_postings. split.
    - intros H x Hx Hm. apply H. exists (get_word_key x). split; [|done].
      apply list_elem_of_fmap. eauto.
    - intros H (t & (x & -> & Hx)%list_elem_of_fmap & Hm). by apply (H x). }
  destruct request as [incl excl]. simpl.
  destruct incl as [|w incl], excl as [|x excl];
    (try rewrite bool_decide_eq_true_2 by done);
    (try rewrite bool_decide_eq_false_2 by done).
  - change (resolve db _) with (all_note_timestamps db).
    split; [|by intros [? _]]. intros ?. split; [done|].
    by intros ? ?%elem_of_nil.
  - change (resolve db _) with
      (all_note_timestamps db ∖ union_postings db (get_word_key <$> x :: excl)).
    by rewrite elem_of_difference, Hnone.
  - change (resolve db _) with
      (intersect_postings db (get_word_key <$> w :: incl)).
    rewrite elem_of_intersect_postings, Hall. split.
    + intros [_ ?]. split; [done|]. by intros ? ?%elem_of_nil.
    + intros [? _]. by split.
  - change (resolve db _) with
      (intersect_postings db (get_word_key <$> w :: incl)
       ∖ union_postings db (get_word_key <$> x :: excl)).
    rewrite elem_of_difference, elem_of_intersect_postings, Hall, Hnone.
    split; [by intros [[_ ?] ?]|]. intros [? ?]. by split.
Qed.

Lemma elem_of_postings_consistent (db : redis) (ts : Z) (t : string) :
  consistent db →
  str ts ∈ postings db t ↔
  ∃ text, stored_note db ts = Some text ∧ t ∈ get_note_tokens ts text.
Proof. intros [_ Hinv]. apply Hinv. Qed.

Lemma resolve_consistent (db : redis) (request : search_request)
    (ts : Z) (text : string) :
  consistent db → stored_note db ts = Some text →
  str ts ∈ resolve db request ↔
  (∀ w, w ∈ inclusion_terms request →
     get_word_key w ∈ get_note_tokens ts text)
  ∧ (∀ x, x ∈ exclusion_terms request →
       get_word_key x ∉ get_note_tokens ts text).
Proof.
  intros Hc Htext. rewrite elem_of_resolve.
  assert (∀ t, str ts ∈ postings db t ↔ t ∈ get_note_tokens ts text) as Hp.
  { intros t. rewrite elem_of_postings_consistent by done. rewrite Htext.
    naive_solver. }
  assert (str ts ∈ all_note_timestamps db) as Hall.
  { apply elem_of_all_note_timestamps; [apply Hc|]. exists ts. by rewrite Htext. }
  case_bool_decide as Hincl.
  - rewrite Hincl. split.
    + intros [_ Hex]. split; [by intros ? ?%elem_of_nil|].
      intros x Hx. rewrite <-Hp. by apply Hex.
    + intros [_ Hex]. split; [done|]. intros x Hx. rewrite Hp. by apply Hex.
  - split.
    + intros [Hin Hex]. split; intros v Hv; [apply Hp|rewrite <-Hp]; auto.
    + intros [Hin Hex]. split; intros v Hv; [apply Hp|rewrite Hp]; auto.
Qed.

(** X4. On a store that satisfies the postings invariant a search returns,
    and it returns exactly the stored notes whose tokens include the key of
    every inclusion term and of no exclusion term. *)
Theorem find_by_tokens (db : redis) (request : search_request) :
  consistent db →
  ∃ notes, find_redis_notes request db = Ok notes db
    ∧ ∀ (ts : Z) (text : string),
        (Some ts, Some text) ∈ notes ↔
        stored_note db ts = Some text
        ∧ (∀ w, w ∈ inclusion_terms request →
             get_word_key w ∈ get_note_tokens ts text)
        ∧ (∀ x, x ∈ exclusion_terms request →
             get_word_key x ∉ get_note_tokens ts text).
Proof.
  intros Hc. exists (resolved_notes db request). split.
  - apply find_redis_notes_resolved; [apply Hc|].
    apply no_dangling_fetchable; [apply Hc|by apply consistent_no_dangling].
  - intros ts text. rewrite elem_of_resolved_notes by apply Hc. split.
    + intros [Hin Htext]. symmetry in Htext. split; [done|].
      by apply (resolve_consistent db request ts text Hc Htext).
    + intros [Htext Hin]. split; [|done].
      by apply (resolve_consistent db request ts text Hc Htext).
Qed.

Lemma find_by_tokens_witness :
  ∃ notes,
    find_redis_notes {| inclusion_terms := []; exclusion_terms := ["errand"] |}
      (after scenario) = Ok notes (after scenario)
    ∧ ∀ (ts : Z) (text : string),
        (Some ts, Some text) ∈ notes ↔
        stored_note (after scenario) ts = Some text
        ∧ (∀ w, w ∈ [] → get_word_key w ∈ get_note_tokens ts text)
        ∧ (∀ x, x ∈ ["errand"] → get_word_key x ∉ get_note_tokens ts text).
Proof.
  apply (find_by_tokens (after scenario)
           {| inclusion_terms := []; exclusion_terms := ["errand"] |}).
  apply consistent_after. by vm_compute.
Defined.

(** X5. After a delete on a store that satisfies the postings invariant, no
    search returns the deleted timestamp. *)
Theorem deleted_note_is_not_found (db : redis) (timestamp : Z) :
  consistent db →
  ∃ db', delete_note timestamp db = Ok tt db'
    ∧ ∀ request, ∃ notes,
        find_redis_notes request db' = Ok notes db'
        ∧ ∀ x, (Some timestamp, x) ∉ notes.
Proof.
  intros Hc.
  destruct (delete_redis_note_ok db timestamp) as (db' & Hrun & Hwf' & Hp & Hn);
    [apply Hc|].
  assert (consistent db') as Hc'.
  { split; [done|]. eapply invariant_delete; [apply Hc|done|done]. }
  exists db'. split; [done|]. intros request.
  exists (resolved_notes db' request). split.
  - apply find_redis_notes_resolved; [apply Hc'|].
    apply no_dangling_fetchable; [apply Hc'|by apply consistent_no_dangling].
  - intros x [Hin _]%elem_of_resolved_notes; [|apply Hc'].
    assert (is_Some (stored_note db' timestamp)) as [text Htext].
    { eapply no_dangling_fetchable; [apply Hc'| |done].
      by apply consistent_no_dangling. }
    by rewrite Hn, decide_True in Htext.
Qed.

Lemma deleted_note_is_not_found_witness :
  ∃ db', delete_note 200 (after scenario) = Ok tt db'
    ∧ ∀ request, ∃ notes,
        find_redis_notes request db' = Ok notes db'
        ∧ ∀ x, (Some 200, x) ∉ notes.
Proof.
  apply (deleted_note_is_not_found (after scenario) 200).
  apply consistent_after. by vm_compute.
Defined.

(** * The order of the notes found *)

Lemma str_omap_int (l : list string) :
  Forall (λ m, ∃ ts : Z, m = str ts) l → str <$> omap int l = l.
Proof.
  induction 1 as [|m l [ts ->] _ IH]; [done|].
  change (omap int (str ts :: l))
    with (match int (str ts) with
          | Some n => n :: omap int l
          | None => omap int l
          end).
  by rewrite int_str, fmap_cons, IH.
Qed.

Lemma StronglySorted_le_lt (l : list Z) :
  StronglySorted Z.le l → NoDup l → StronglySorted Z.lt l.
Proof.
  induction 1 as [|x l Hsorted IH Hall]; intros Hnd; [constructor|].
  apply NoDup_cons in Hnd as [Hx Hnd]. constructor; [by apply IH|].
  apply Forall_forall. intros y Hy.
  pose proof (proj1 (Forall_forall _ _) Hall y Hy) as Hle.
  assert (x ≠ y) by (by intros ->). lia.
Qed.

Lemma StronglySorted_lt_lookup (l : list Z) (i j : nat) (a b : Z) :
  StronglySorted Z.lt l → l !! i = Some a → l !! j = Some b →
  (i < j)%nat → a < b.
Proof.
  intros Hsorted. revert i j.
  induction Hsorted as [|x l Hsorted IH Hall]; intros i j Hi Hj Hlt; [done|].
  destruct j as [|j]; [lia|]. simpl in Hj. destruct i as [|i].
  - injection Hi as ->. apply (proj1 (Forall_forall _ _) Hall).
    by eapply list_elem_of_lookup_2.
  - simpl in Hi. apply (IH i j); [done|done|lia].
Qed.

Lemma sorted_timestamps_strict (db : redis) (request : search_request) :
  store_wf db → StronglySorted Z.lt (sorted_timestamps db request).
Proof.
  intros Hwf. apply StronglySorted_le_lt.
  - apply StronglySorted_merge_sort; apply _.
  - unfold sorted_timestamps. rewrite merge_sort_Permutation.
    apply (NoDup_fmap_1 str). rewrite str_omap_int; [apply NoDup_elements|].
    apply Forall_forall. intros m Hm%elem_of_elements.
    by eapply resolve_members.
Qed.

Lemma for_list_decode_None (l : list (option string)) (db : redis) :
  None ∈ l → for_list l decode db = Raise AttributeError.
Proof.
  induction l as [|x l IH]; [by intros ?%elem_of_nil|].
  intros Hin. cbn [for_list]. unfold mbind, M_bind.
  destruct x as [text|]; [|done].
  change (decode (Some text) db) with (Ok text db). cbv iota beta.
  rewrite IH; [done|]. apply elem_of_cons in Hin as [?|?]; done.
Qed.

Lemma find_redis_notes_tail (db : redis) (request : search_request)
    (R : result (list found)) :
  store_wf db →
  (∀ raw, raw ≡ₚ elements (resolve db request) →
     ((timestamps ← for_list raw int_decode;
       let timestamps := merge_sort Z.le timestamps in
       if bool_decide (timestamps = []) then mret [(None, None)]
       else
         notes ← Redis.mget
           ((λ timestamp, get_note_key (str timestamp)) <$> timestamps);
         notes ← for_list notes decode;
         mret (zip (Some <$> timestamps) (Some <$> notes))) : M (list found)) db
     = R) →
  find_redis_notes request db = R.
Proof.
  intros Hwf Htail. unfold find_redis_notes.
  unfold mbind at 1. unfold M_bind at 1.
  unfold resolve in Htail.
  destruct request as [inclusion exclusion]; simpl in *.
  destruct inclusion as [|w inclusion], exclusion as [|x exclusion].
  - rewrite !bool_decide_eq_false_2 by (by intros H; apply H).
    unfold mbind at 1. unfold M_bind at 1. rewrite keys_notes.
    unfold mret at 1. unfold M_ret at 1.
    rewrite note_keys_set. apply Htail.
    apply all_note_timestamps_elements.
  - rewrite bool_decide_eq_false_2 by (by intros H; apply H).
    rewrite bool_decide_eq_true_2 by done.
    unfold mbind at 1. unfold M_bind at 1. rewrite keys_notes.
    unfold mbind at 1. unfold M_bind at 1.
    rewrite (sunion_postings db (x :: exclusion)) by done.
    unfold mret at 1. unfold M_ret at 1.
    rewrite note_keys_set. by apply Htail.
  - rewrite bool_decide_eq_true_2 by done.
    rewrite bool_decide_eq_false_2 by (by intros H; apply H).
    unfold mbind at 1. unfold M_bind at 1.
    rewrite (sinter_postings db (w :: inclusion)) by done.
    unfold mret at 1. unfold M_ret at 1.
    by apply Htail.
  - rewrite !bool_decide_eq_true_2 by done.
    unfold mbind at 1. unfold M_bind at 1.
    rewrite (sinter_postings db (w :: inclusion)) by done.
    unfold mbind at 1. unfold M_bind at 1.
    rewrite (sunion_postings db (x :: exclusion)) by done.
    unfold mret at 1. unfold M_ret at 1.
    by apply Htail.
Qed.

Lemma find_redis_notes_unfetchable (db : redis) (request : search_request)
    (ts : Z) :
  store_wf db → str ts ∈ resolve db request → stored_note db ts = None →
  find_redis_notes request db = Raise AttributeError.
Proof.
  intros Hwf Hts Hnone. apply find_redis_notes_tail; [done|].
  intros raw Hraw. unfold mbind, M_bind.
  rewrite for_list_int.
  2:{ apply Forall_forall. intros m Hm. rewrite Hraw in Hm.
      apply elem_of_elements in Hm.
      destruct (resolve_members _ _ _ Hwf Hm) as [ts' ->].
      rewrite int_str. eauto. }
  assert (merge_sort Z.le (omap int raw) = sorted_timestamps db request) as ->.
  { apply merge_sort_perm. by rewrite Hraw. }
  apply elem_of_sorted_timestamps in Hts; [|done].
  rewrite bool_decide_eq_false_2.
  2:{ intros Hempty. rewrite Hempty in Hts. by apply elem_of_nil in Hts. }
  rewrite mget_stored_notes, for_list_decode_None; [done|].
  apply list_elem_of_fmap. eauto.
Qed.

(** A search that returns has fetched a note for every resolved timestamp,
    and it returns the resolved notes. *)
Lemma find_redis_notes_returns (db db' : redis) (request : search_request)
    (notes : list found) :
  store_wf db → find_redis_notes request db = Ok notes db' →
  fetchable db request ∧ notes = resolved_notes db request ∧ db' = db.
Proof.
  intros Hwf Hrun.
  assert (fetchable db request) as Hfetch.
  { intros ts Hts. destruct (stored_note db ts) as [text|] eqn:Htext; [by eauto|].
    rewrite (find_redis_notes_unfetchable db request ts Hwf Hts Htext) in Hrun.
    discriminate Hrun. }
  split; [done|].
  rewrite (find_redis_notes_resolved db request Hwf Hfetch) in Hrun.
  by injection Hrun as <- <-.
Qed.

(** X6. The notes a search returns are in strictly ascending order of
    timestamp: whenever a search on a well-formed store returns, of two
    pairs of the result the earlier one has the smaller timestamp, so no
    timestamp is returned twice. *)
Theorem find_strictly_ascending (db db' : redis) (request : search_request)
    (notes : list found) :
  store_wf db → find_redis_notes request db = Ok notes db' →
  ∀ (i j : nat) (a b : Z) (x y : option string),
    notes !! i = Some (Some a, x) → notes !! j = Some (Some b, y) →
    (i < j)%nat → a < b.
Proof.
  intros Hwf Hrun.
  destruct (find_redis_notes_returns db db' request notes Hwf Hrun)
    as (_ & -> & _).
  intros i j a b x y. unfold resolved_notes.
  pose proof (sorted_timestamps_strict db request Hwf) as Hsorted.
  destruct (sorted_timestamps db request) as [|t l] eqn:Heq.
  { intros Hi. by destruct i as [|[|i]]. }
  rewrite !lookup_zip_with, !list_lookup_fmap.
  destruct ((t :: l) !! i) as [a'|] eqn:Hi; [|done].
  destruct ((t :: l) !! j) as [b'|] eqn:Hj; [|done].
  simpl. intros [= -> _] [= -> _] Hlt.
  by eapply StronglySorted_lt_lookup.
Qed.

Lemma find_strictly_ascending_witness :
  find_redis_notes {| inclusion_terms := ["buy"]; exclusion_terms := [] |}
    (after scenario)
  = Ok [(Some 100, Some "buy milk #errand"); (Some 300, Some "buy bread #errand")]
       (after scenario)
  ∧ 100 < 300.
Proof.
  assert (find_redis_notes {| inclusion_terms := ["buy"]; exclusion_terms := [] |}
            (after scenario)
          = Ok [(Some 100, Some "buy milk #errand");
                (Some 300, Some "buy bread #errand")] (after scenario)) as Hrun
    by by vm_compute.
  split; [exact Hrun|].
  apply (find_strictly_ascending (after scenario) (after scenario)
           {| inclusion_terms := ["buy"]; exclusion_terms := [] |}
           [(Some 100, Some "buy milk #errand");
            (Some 300, Some "buy bread #errand")]
           ltac:(apply sound_after) Hrun
           0%nat 1%nat 100 300 (Some "buy milk #errand")
           (Some "buy bread #errand") eq_refl eq_refl).
  lia.
Defined.

(** * Searching does not write *)

Lemma read_only_ret {A} (a : A) : read_only (mret a).
Proof. intros db a' db'. by intros [= _ <-]. Qed.

Lemma read_only_raise {A} (e : exn) : read_only (raise e : M A).
Proof. by intros db a db'. Qed.

Lemma read_only_bind {A B} (m : M A) (f : A → M B) :
  read_only m → (∀ a, read_only (f a)) → read_only (m ≫= f).
Proof.
  intros Hm Hf db b db'. unfold mbind, M_bind.
  destruct (m db) as [a db1|] eqn:E; [|done].
  apply Hm in E as ->. apply Hf.
Qed.

Lemma read_only_for_list {A B} (l : list A) (f : A → M B) :
  (∀ x, read_only (f x)) → read_only (for_list l f).
Proof.
  intros Hf. induction l as [|x l IH]; simpl; [apply read_only_ret|].
  apply read_only_bind; [done|]. intros y.
  apply read_only_bind; [done|]. intros ys. apply read_only_ret.
Qed.

Lemma read_only_keys (pattern : string) : read_only (Redis.keys pattern).
Proof. intros db a db'. by intros [= _ <-]. Qed.

Lemma read_only_sinter (keys : list string) : read_only (Redis.sinter keys).
Proof.
  intros db a db'. unfold Redis.sinter.
  destruct (Redis.all_members db keys) as [[|s ss]|]; by intros [= _ <-].
Qed.

Lemma read_only_sunion (keys : list string) : read_only (Redis.sunion keys).
Proof.
  intros db a db'. unfold Redis.sunion.
  destruct (Redis.all_members db keys); by intros [= _ <-].
Qed.

Lemma read_only_mget (keys : list string) : read_only (Redis.mget keys).
Proof. intros db a db'. by intros [= _ <-]. Qed.

Lemma read_only_decode (x : option string) : read_only (decode x).
Proof. destruct x; [apply read_only_ret|apply read_only_raise]. Qed.

Lemma read_only_int_decode (x : string) : read_only (int_decode x).
Proof.
  unfold int_decode. destruct (int x); [apply read_only_ret|apply read_only_raise].
Qed.

(** X7. A search never writes: whatever the store and the request, when
    [find_redis_notes] returns the store is the one it was given. *)
Theorem find_redis_notes_read_only (request : search_request) (db db' : redis)
    (notes : list found) :
  find_redis_notes request db = Ok notes db' → db' = db.
Proof.
  revert db notes db'. change (read_only (find_redis_notes request)).
  unfold find_redis_notes.
  repeat first
    [ apply read_only_ret
    | apply read_only_keys | apply read_only_sinter | apply read_only_sunion
    | apply read_only_mget
    | apply read_only_for_list; intros ?
    | apply read_only_decode | apply read_only_int_decode
    | apply read_only_bind; [|intros ?]
    | case_bool_decide
    | progress cbv zeta ].
Qed.

Lemma find_redis_notes_read_only_witness :
  after [Save 1 "foo"; Save 1 "bar"] = after [Save 1 "foo"; Save 1 "bar"].
Proof.
  apply (find_redis_notes_read_only
           {| inclusion_terms := ["foo"]; exclusion_terms := [] |}
           (after [Save 1 "foo"; Save 1 "bar"]) _ [(Some 1, Some "bar")]).
  by vm_compute.
Defined.

(** * Letter case *)

Lemma word_keys_lower (terms : list string) :
  get_word_key <$> (lower <$> terms) = get_word_key <$> terms.
Proof.
  rewrite <-list_fmap_compose. apply list_fmap_ext. intros _ w _.
  apply word_key_lower.
Qed.

(** X8. Search terms are matched without regard to letter case: a request
    and the request with its terms lower-cased are answered alike on every
    store. *)
Theorem find_ignores_case_of_terms (request : search_request) (db : redis) :
  find_redis_notes
    {| inclusion_terms := lower <$> inclusion_terms request;
       exclusion_terms := lower <$> exclusion_terms request |} db
  = find_redis_notes request db.
Proof.
  unfold find_redis_notes. simpl. rewrite !word_keys_lower.
  by destruct (inclusion_terms request), (exclusion_terms request).
Qed.

(** * Note keys *)

(** X9. The timestamp is recovered from a note key the way the search does
    it: the key matches the pattern for note keys, and stripping the prefix
    and reading the rest as an integer gives the timestamp back. *)
Theorem note_key_round_trip (timestamp : Z) :
  glob_match (get_note_key "*") (get_note_key (str timestamp)) = true
  ∧ int (slice_from (String.length (get_note_key ""))
           (get_note_key (str timestamp))) = Some timestamp.
Proof. split; [apply glob_note_key|]. rewrite slice_note_key. apply int_str. Qed.

(** * How saves and deletes compose *)

Lemma postings_not_string (db : redis) (k : string) :
  is_string (db !! k) = false →
  db !! k = None ∨ db !! k = Some (VSet (postings db k)).
Proof. unfold postings. destruct (db !! k) as [[|s]|]; auto. done. Qed.

(** X10. Saving a note at a timestamp that [time.gmtime] accepts and where
    no note is stored, and deleting it again, gives back the store as it
    was, on a store that satisfies the postings invariant and holds no empty
    set. *)
Theorem save_then_delete_restores (db : redis) (timestamp : Z) (note : string) :
  consistent db → no_empty_sets db → in_gmtime_range timestamp →
  stored_note db timestamp = None →
  ∃ db1, save_note timestamp note db = Ok tt db1
    ∧ delete_note timestamp db1 = Ok tt db.
Proof.
  intros [Hwf Hinv] Hne Hr Hfresh.
  destruct (add_redis_note_ok db timestamp note Hr Hwf)
    as (db1 & Hrun1 & Hwf1 & _ & Hn1).
  destruct (add_redis_note_lookup db timestamp note Hr Hwf)
    as (db1' & Hrun1' & Hlk1).
  destruct (run_ok_inj _ _ _ _ _ _ Hrun1 Hrun1') as [_ <-].
  assert (stored_note db1 timestamp = Some note) as Hnote
    by by rewrite Hn1, decide_True.
  destruct (delete_redis_note_lookup db1 timestamp note Hwf1 Hnote)
    as (db2 & Hrun2 & Hlk2).
  exists db1. split; [done|].
  unfold delete_note. rewrite Hrun2. f_equal. apply map_eq. intros k.
  rewrite Hlk2, Hlk1. case_decide as Hk.
  - subst k. symmetry. by apply stored_note_None.
  - case_decide as Hin; [|done].
    assert (str timestamp ∉ postings db k) as Hfree.
    { intros (text & Htext & _)%Hinv. congruence. }
    pose proof (wf_token_not_string db k note timestamp Hwf Hin) as Hs.
    unfold sadd_value, srem_value.
    destruct (postings_not_string db k Hs) as [E|E]; rewrite E.
    + rewrite decide_True; [done|set_solver].
    + assert (({[str timestamp]} ∪ postings db k) ∖ {[str timestamp]}
              = postings db k) as -> by set_solver.
      rewrite decide_False; [done|]. intros Hempty.
      rewrite Hempty in E. by apply Hne in E.
Qed.

Lemma save_then_delete_restores_witness :
  ∃ db1, save_note 400 "call bob #errand" (after scenario) = Ok tt db1
    ∧ delete_note 400 db1 = Ok tt (after scenario).
Proof.
  apply (save_then_delete_restores (after scenario) 400 "call bob #errand").
  - apply consistent_after. by vm_compute.
  - apply sound_after.
  - by eexists; vm_compute.
  - by vm_compute.
Defined.

(** X11. Saving the same note twice, at a timestamp that [time.gmtime]
    accepts, is the same as saving it once. *)
Theorem save_note_idempotent (db : redis) (timestamp : Z) (note : string) :
  store_wf db → in_gmtime_range timestamp →
  ∃ db1, save_note timestamp note db = Ok tt db1
    ∧ save_note timestamp note db1 = Ok tt db1.
Proof.
  intros Hwf Hr.
  destruct (add_redis_note_ok db timestamp note Hr Hwf)
    as (db1 & Hrun1 & Hwf1 & _).
  destruct (add_redis_note_lookup db timestamp note Hr Hwf)
    as (db1' & Hrun1' & Hlk1).
  destruct (run_ok_inj _ _ _ _ _ _ Hrun1 Hrun1') as [_ <-].
  destruct (add_redis_note_lookup db1 timestamp note Hr Hwf1)
    as (db2 & Hrun2 & Hlk2).
  exists db1. split; [done|].
  unfold save_note. rewrite Hrun2. f_equal. apply map_eq. intros k.
  rewrite Hlk2, Hlk1. repeat case_decide; try done.
  apply sadd_value_idemp.
Qed.

Lemma save_note_idempotent_witness :
  ∃ db1, save_note 100 "buy tea" (after scenario) = Ok tt db1
    ∧ save_note 100 "buy tea" db1 = Ok tt db1.
Proof.
  apply (save_note_idempotent (after scenario) 100 "buy tea").
  - apply sound_after.
  - by eexists; vm_compute.
Defined.

Lemma sadd_value_comm (a b : string) (v : option value) :
  sadd_value a (sadd_value b v) = sadd_value b (sadd_value a v).
Proof. unfold sadd_value. do 2 f_equal. set_solver. Qed.

(** X12. Saves at different timestamps that [time.gmtime] accepts commute:
    in either order they return and leave the same store. *)
Theorem save_note_commutes (db : redis) (ts1 ts2 : Z) (note1 note2 : string) :
  store_wf db → in_gmtime_range ts1 → in_gmtime_range ts2 → ts1 ≠ ts2 →
  ∃ db',
    (_ ← save_note ts1 note1; save_note ts2 note2) db = Ok tt db'
    ∧ (_ ← save_note ts2 note2; save_note ts1 note1) db = Ok tt db'.
Proof.
  intros Hwf Hr1 Hr2 Hne.
  assert (∀ a b na nb, in_gmtime_range a → in_gmtime_range b → a ≠ b →
    ∃ db', (_ ← save_note a na; save_note b nb) db = Ok tt db'
      ∧ ∀ k, db' !! k =
          if decide (get_note_key (str b) = k) then Some (VString nb)
          else if decide (get_note_key (str a) = k) then Some (VString na)
          else
            let v := if decide (k ∈ get_note_tokens a na)
                     then sadd_value (str a) (db !! k) else db !! k in
            if decide (k ∈ get_note_tokens b nb)
            then sadd_value (str b) v else v) as Hseq.
  { intros a b na nb Ha Hb Hab.
    destruct (add_redis_note_ok db a na Ha Hwf) as (db1 & Hrun1 & Hwf1 & _).
    destruct (add_redis_note_lookup db a na Ha Hwf) as (db1' & Hrun1' & Hlk1).
    destruct (run_ok_inj _ _ _ _ _ _ Hrun1 Hrun1') as [_ <-].
    destruct (add_redis_note_lookup db1 b nb Hb Hwf1) as (db2 & Hrun2 & Hlk2).
    exists db2. split.
    { unfold save_note, mbind, M_bind. by rewrite Hrun1. }
    intros k. rewrite Hlk2, Hlk1.
    destruct (decide (get_note_key (str b) = k)) as [Eb|Hkb]; [done|].
    destruct (decide (get_note_key (str a) = k)) as [Ea|Hka]; [|done].
    rewrite decide_False; [done|].
    intros Hin. subst k. by eapply token_ne_note_key in Hin. }
  destruct (Hseq ts1 ts2 note1 note2 Hr1 Hr2 Hne) as (dbA & HrunA & HlkA).
  destruct (Hseq ts2 ts1 note2 note1 Hr2 Hr1) as (dbB & HrunB & HlkB); [done|].
  exists dbA. split; [done|]. rewrite HrunB. f_equal.
  apply map_eq. intros k. rewrite HlkA, HlkB.
  destruct (decide (get_note_key (str ts2) = k)) as [E2|H2],
    (decide (get_note_key (str ts1) = k)) as [E1|H1]; try done.
  - subst k. by apply note_key_inj in E1.
  - simpl. repeat case_decide; try done. apply sadd_value_comm.
Qed.

Lemma save_note_commutes_witness :
  ∃ db',
    (_ ← save_note 400 "buy tea"; save_note 500 "tea time") (after scenario)
      = Ok tt db'
    ∧ (_ ← save_note 500 "tea time"; save_note 400 "buy tea") (after scenario)
      = Ok tt db'.
Proof.
  apply (save_note_commutes (after scenario) 400 500).
  - apply sound_after.
  - by eexists; vm_compute.
  - by eexists; vm_compute.
  - done.
Defined.

(** X13. Updating a note to its own timestamp and text leaves the store as
    it was, on a well-formed store whose index has the note's postings. *)
Theorem update_note_with_same_note (db : redis) (timestamp : Z) (text : string) :
  store_wf db → index_complete db → stored_note db timestamp = Some text →
  update_note timestamp timestamp text db = Ok tt db.
Proof.
  intros Hwf Hc Htext.
  destruct (delete_redis_note_ok db timestamp Hwf) as (db1 & Hrun1 & Hwf1 & _).
  destruct (delete_redis_note_lookup db timestamp text Hwf Htext)
    as (db1' & Hrun1' & Hlk1).
  destruct (run_ok_inj _ _ _ _ _ _ Hrun1 Hrun1') as [_ <-].
  pose proof (wf_stored_in_range db timestamp text Hwf Htext) as Hr.
  destruct (add_redis_note_lookup db1 timestamp text Hr Hwf1)
    as (db2 & Hrun2 & Hlk2).
  unfold update_note, delete_note, save_note, mbind, M_bind.
  rewrite Hrun1, Hrun2. f_equal. apply map_eq. intros k.
  rewrite Hlk2, Hlk1. case_decide as Hk.
  - subst k. symmetry. by apply stored_note_Some.
  - case_decide as Hin; [|done].
    pose proof (Hc timestamp text k Htext Hin) as Hm.
    unfold postings in Hm. unfold sadd_value, srem_value.
    destruct (db !! k) as [[|s]|] eqn:E;
      [by apply not_elem_of_empty in Hm| |by apply not_elem_of_empty in Hm].
    assert ({[str timestamp]} ∪ s ∖ {[str timestamp]} = s) as Hs.
    { apply set_eq. intros m.
      rewrite elem_of_union, elem_of_difference, elem_of_singleton.
      destruct (decide (m = str timestamp)) as [->|]; naive_solver. }
    case_decide as Hempty.
    + rewrite Hempty in Hs. by rewrite <-Hs.
    + by rewrite Hs.
Qed.

Lemma update_note_with_same_note_witness :
  update_note 200 200 "write code" (after scenario) = Ok tt (after scenario).
Proof.
  apply (update_note_with_same_note (after scenario) 200 "write code").
  - apply sound_after.
  - apply sound_after.
  - by vm_compute.
Defined.

(** * More on the tokenizer *)

Lemma lower_app (a b : string) : lower (a +:+ b) = lower a +:+ lower b.
Proof. induction a as [|c a IH]; [done|]. simpl. by rewrite IH. Qed.

Lemma lower_snoc (run : string) (c : ascii) :
  lower (snoc run c) = snoc (lower run) (Char.lower c).
Proof. unfold snoc. by rewrite lower_app. Qed.

Lemma is_word_lower (c : ascii) : Char.is_word (Char.lower c) = Char.is_word c.
Proof. destruct c as [[] [] [] [] [] [] [] []]; by vm_compute. Qed.

Lemma is_tag_lower (c : ascii) : Char.is_tag (Char.lower c) = Char.is_tag c.
Proof. destruct c as [[] [] [] [] [] [] [] []]; by vm_compute. Qed.

Lemma is_upper_lower (c : ascii) : Char.is_upper (Char.lower c) = false.
Proof. destruct c as [[] [] [] [] [] [] [] []]; by vm_compute. Qed.

Lemma tag_start_lower (c : ascii) :
  tag_start (Char.lower c) = lower <$> tag_start c.
Proof. destruct c as [[] [] [] [] [] [] [] []]; by vm_compute. Qed.

Lemma flush_word_lower (run : string) :
  flush_word (lower run) = lower <$> flush_word run.
Proof. by destruct run. Qed.

Lemma flush_tag_lower (st : option string) :
  flush_tag (lower <$> st) = lower <$> flush_tag st.
Proof. by destruct st as [[|c run]|]. Qed.

Lemma findall_word_from_lower (line run : string) :
  findall_word_from (lower run) (lower line) =
  lower <$> findall_word_from run line.
Proof.
  revert run. induction line as [|c line IH]; intros run; simpl.
  - apply flush_word_lower.
  - rewrite is_word_lower. destruct (Char.is_word c).
    + by rewrite <-lower_snoc, IH.
    + by rewrite fmap_app, flush_word_lower, <-IH.
Qed.

Lemma findall_tag_from_lower (line : string) (st : option string) :
  findall_tag_from (lower <$> st) (lower line) =
  lower <$> findall_tag_from st line.
Proof.
  revert st. induction line as [|c line IH]; intros st; simpl.
  - apply flush_tag_lower.
  - destruct st as [run|]; simpl.
    + rewrite is_tag_lower. destruct (Char.is_tag c).
      * rewrite <-lower_snoc. apply (IH (Some (snoc run c))).
      * rewrite fmap_app, tag_start_lower, IH. f_equal. by destruct run.
    + by rewrite tag_start_lower, IH.
Qed.

Lemma add_tokens_lower (parts tokens : list string) :
  foldl add_token tokens (lower <$> parts) = foldl add_token tokens parts.
Proof.
  revert tokens. induction parts as [|p parts IH]; intros tokens; [done|].
  simpl. rewrite IH. f_equal. unfold add_token. by rewrite lower_lower.
Qed.

(** X14. On ASCII text tokenization ignores letter case: a text and the
    text lower-cased have the same tokens, in the same order. *)
Theorem get_note_tokens_ignores_case (timestamp : Z) (line : string) :
  ascii_text line = true →
  get_note_tokens timestamp (lower line) = get_note_tokens timestamp line.
Proof.
  intros _. unfold get_note_tokens, findall_word, findall_tag.
  change (findall_word_from EmptyString (lower line))
    with (findall_word_from (lower EmptyString) (lower line)).
  change (findall_tag_from None (lower line))
    with (findall_tag_from (lower <$> None) (lower line)).
  by rewrite findall_word_from_lower, findall_tag_from_lower, !add_tokens_lower.
Qed.

(** X15. The word pattern splits a text at its non-word characters: every
    match is a non-empty run of word characters, a text of word characters
    only is its own single match, and the matches of two texts joined by a
    non-word character are the matches of the first followed by those of
    the second. *)
Theorem findall_word_splits (a b : string) (c : ascii) :
  (∀ p, p ∈ findall_word a →
     p ≠ EmptyString ∧ all_chars Char.is_word p = true)
  ∧ (a ≠ EmptyString → all_chars Char.is_word a = true → findall_word a = [a])
  ∧ (Char.is_word c = false →
       findall_word (a +:+ String c b) = findall_word a ++ findall_word b).
Proof.
  split; [|split].
  - intros p. by apply findall_word_from_chars.
  - apply findall_word_run.
  - apply findall_word_from_split.
Qed.

Lemma flush_tag_chars (st : option string) (p : string) :
  (∀ run, st = Some run → all_chars Char.is_tag run = true) →
  p ∈ flush_tag st →
  ∃ run, p = String "#" run ∧ run ≠ EmptyString
         ∧ all_chars Char.is_tag run = true.
Proof.
  intros Hst. destruct st as [[|c run]|]; simpl; try by intros ?%elem_of_nil.
  intros ->%list_elem_of_singleton. exists (String c run).
  split; [done|]. split; [done|]. by apply Hst.
Qed.

Lemma findall_tag_from_chars (line : string) (st : option string) (p : string) :
  (∀ run, st = Some run → all_chars Char.is_tag run = true) →
  p ∈ findall_tag_from st line →
  ∃ run, p = String "#" run ∧ run ≠ EmptyString
         ∧ all_chars Char.is_tag run = true.
Proof.
  assert (∀ c run, tag_start c = Some run → all_chars Char.is_tag run = true)
    as Hstart.
  { intros c run. unfold tag_start. by destruct (Char.eqb c "#"); intros [= <-]. }
  revert st. induction line as [|c line IH]; intros st Hst; simpl.
  - by apply flush_tag_chars.
  - destruct st as [run|]; [|apply IH, Hstart].
    destruct (Char.is_tag c) eqn:Hc.
    + apply IH. intros run' [= <-]. rewrite all_chars_snoc, Hc.
      by rewrite (Hst run).
    + rewrite elem_of_app. intros [Hp|Hp].
      * by eapply flush_tag_chars.
      * eapply IH; [|done]. apply Hstart.
Qed.

Lemma get_note_tokens_ignores_case_witness :
  get_note_tokens 0 (lower "Buy MILK #Errand") =
  get_note_tokens 0 "Buy MILK #Errand".
Proof.
  apply (get_note_tokens_ignores_case 0 "Buy MILK #Errand"). by vm_compute.
Defined.

Lemma all_chars_lower_tag (run : string) :
  all_chars Char.is_tag run = true →
  all_chars (λ c, Char.is_tag c && negb (Char.is_upper c)) (lower run) = true.
Proof.
  induction run as [|c run IH]; [done|]. simpl.
  intros [Hc Hrun]%andb_true_iff.
  by rewrite is_tag_lower, Hc, is_upper_lower, IH.
Qed.

(** X16. Every hashtag token is the prefix [w_#] followed by a non-empty
    run of characters, each of them in the class [[A-z0-9-_]] of the hashtag
    pattern and none of them an upper-case letter. *)
Theorem tag_token_characters (line t : string) :
  t ∈ tag_tokens line →
  ∃ run, t = "w_#" +:+ run ∧ run ≠ EmptyString
    ∧ all_chars (λ c, Char.is_tag c && negb (Char.is_upper c)) run = true.
Proof.
  unfold tag_tokens. intros (p & -> & Hp)%list_elem_of_fmap.
  apply findall_tag_from_chars in Hp as (run & -> & Hne & Hrun); [|done].
  exists (lower run). split.
  - unfold get_word_key. rewrite lower_lower. done.
  - split; [by destruct run|]. by apply all_chars_lower_tag.
Qed.

Lemma tag_token_characters_witness :
  ∃ run, "w_#a^b" = "w_#" +:+ run ∧ run ≠ EmptyString
    ∧ all_chars (λ c, Char.is_tag c && negb (Char.is_upper c)) run = true.
Proof.
  apply (tag_token_characters "see #A^b").
  by vm_compute; left.
Defined.

(** * Calendar fields *)

(** X17. When [time.gmtime] accepts the timestamp, the calendar fields
    behind the temporal tokens are those of the UTC hour that contains the
    timestamp: a month from 1 to 12, a day of that month in the Gregorian
    calendar (so from 1 to 31), an hour from 0 to 23 and a weekday from 0 to
    6 counted from Monday; the timestamp fits 64 bits and the year counted
    from 1900 fits 32 bits. *)
Theorem gmtime_fields_in_range (timestamp : Z) (note_time : struct_time) :
  gmtime timestamp = inr note_time →
  utc_fields timestamp note_time
  ∧ 1 ≤ tm_mday note_time ≤ 31
  ∧ - 2 ^ 63 ≤ timestamp < 2 ^ 63
  ∧ - 2 ^ 31 ≤ tm_year note_time - 1900 < 2 ^ 31.
Proof.
  intros Hr. pose proof (gmtime_utc_fields _ _ Hr) as Hutc.
  split; [done|]. split.
  - destruct Hutc as (_ & Hd & _).
    pose proof (days_in_month_le (tm_year note_time) (tm_mon note_time)). lia.
  - apply gmtime_inr in Hr as (_ & H64 & H32). unfold fits in *.
    apply andb_true_iff in H64 as [?%Z.leb_le ?%Z.ltb_lt].
    apply andb_true_iff in H32 as [?%Z.leb_le ?%Z.ltb_lt].
    simpl in *. lia.
Qed.

Lemma gmtime_fields_in_range_witness :
  utc_fields 1456704000
    {| tm_year := 2016; tm_mon := 2; tm_mday := 29; tm_hour := 0; tm_wday := 0 |}.
Proof.
  apply (gmtime_fields_in_range 1456704000). by vm_compute.
Defined.

(** * Listing notes and words *)

(** X18. After any sequence of calls that returns, stale postings or not,
    a search with neither inclusion nor exclusion terms returns, and it
    returns exactly the notes that are stored. *)
Theorem find_without_terms_lists_notes (calls : list call) (db : redis) :
  run_calls calls ∅ = Ok tt db →
  ∃ notes,
    find_redis_notes {| inclusion_terms := []; exclusion_terms := [] |} db
      = Ok notes db
    ∧ ∀ (ts : Z) (text : string),
        (Some ts, Some text) ∈ notes ↔ stored_note db ts = Some text.
Proof.
  intros Hrun.
  pose proof (run_calls_wf calls ∅ db store_wf_empty Hrun) as Hwf.
  set (request := {| inclusion_terms := []; exclusion_terms := [] |}).
  exists (resolved_notes db request).
  assert (∀ ts, str ts ∈ resolve db request ↔ is_Some (stored_note db ts))
    as Hall.
  { intros ts. change (resolve db request) with (all_note_timestamps db).
    rewrite elem_of_all_note_timestamps by done. split.
    - by intros (ts' & ->%str_inj & ?).
    - intros ?. by exists ts. }
  split.
  - apply find_redis_notes_resolved; [done|]. intros ts. apply Hall.
  - intros ts text. rewrite elem_of_resolved_notes, Hall by done. split.
    + by intros [_ ->].
    + intros Htext. rewrite Htext. eauto.
Qed.

Lemma find_without_terms_lists_notes_witness :
  ∃ notes,
    find_redis_notes {| inclusion_terms := []; exclusion_terms := [] |}
      (after [Save 1 "foo"; Save 1 "bar"; Delete 1; Save 2 "foo"])
      = Ok notes (after [Save 1 "foo"; Save 1 "bar"; Delete 1; Save 2 "foo"])
    ∧ ∀ (ts : Z) (text : string),
        (Some ts, Some text) ∈ notes ↔
        stored_note (after [Save 1 "foo"; Save 1 "bar"; Delete 1; Save 2 "foo"])
          ts = Some text.
Proof.
  apply (find_without_terms_lists_notes
           [Save 1 "foo"; Save 1 "bar"; Delete 1; Save 2 "foo"]).
  by vm_compute.
Defined.

(** X19. On a store that satisfies the postings invariant and holds no
    empty set, the common words are exactly the words and hashtags of the
    stored notes: a string is listed iff prefixing it with [w_] gives a
    token of some stored note. *)
Theorem get_common_words_of_notes (db : redis) :
  consistent db → no_empty_sets db →
  ∃ words, get_common_words db = Ok words db
    ∧ ∀ x, x ∈ words ↔
        ∃ (ts : Z) (text : string),
          stored_note db ts = Some text
          ∧ "w_" +:+ x ∈ get_note_tokens ts text.
Proof.
  intros [Hwf Hinv] Hne. eexists. split; [reflexivity|]. intros x.
  rewrite elem_of_list_to_set, list_elem_of_fmap.
  assert (is_Some (db !! ("w_" +:+ x)) ↔
          ∃ ts : Z, str ts ∈ postings db ("w_" +:+ x)) as Hkey.
  { unfold postings. destruct (db !! ("w_" +:+ x)) as [[v|s]|] eqn:E.
    - apply (wf_strings _ Hwf) in E as (ts & E & _). discriminate E.
    - split; [intros _|by eauto].
      destruct (set_choose_or_empty s) as [[m Hm]|Hs].
      + destruct (wf_members _ Hwf _ s m E Hm) as [ts ->]. eauto.
      + apply leibniz_equiv in Hs as ->. by apply Hne in E.
    - split; [by intros [? ?]|]. intros [ts Hin]. set_solver. }
  split.
  - intros (key & -> & [Hk Hdom]%list_elem_of_filter).
    apply elem_of_elements, elem_of_dom in Hdom.
    apply Is_true_true in Hk. rewrite glob_word_keys in Hk.
    apply has_prefix_spec in Hk as [r ->].
    apply Hkey in Hdom as [ts Hin]. apply Hinv in Hin as (text & Htext & Hin).
    eauto.
  - intros (ts & text & Htext & Hin).
    exists ("w_" +:+ x). split; [done|].
    apply list_elem_of_filter. split.
    + apply Is_true_true. by rewrite glob_word_keys.
    + apply elem_of_elements, elem_of_dom, Hkey. exists ts.
      apply Hinv. eauto.
Qed.

Lemma get_common_words_of_notes_witness :
  ∃ words, get_common_words (after scenario) = Ok words (after scenario)
    ∧ ∀ x, x ∈ words ↔
        ∃ (ts : Z) (text : string),
          stored_note (after scenario) ts = Some text
          ∧ "w_" +:+ x ∈ get_note_tokens ts text.
Proof.
  apply (get_common_words_of_notes (after scenario)).
  - apply consistent_after. by vm_compute.
  - apply sound_after.
Defined.

(** * Key namespaces *)

(** X20. The three kinds of key never collide: a word or hashtag token
    starts with [w_], a temporal token does not, and neither is ever a note
    key, so the set commands of a save or delete never meet a note's string
    value. *)
Theorem key_namespaces_disjoint (timestamp : Z) (line t : string) :
  t ∈ get_note_tokens timestamp line →
  (∀ m, t ≠ get_note_key m)
  ∧ glob_match (get_note_key "*") t = false
  ∧ (glob_match (get_word_key "*") t = true ↔
     t ∈ word_tokens line ∨ t ∈ tag_tokens line)
  ∧ (glob_match (get_word_key "*") t = false ↔
     t ∈ temporal_tokens timestamp).
Proof.
  intros Ht. split; [intros m; by eapply token_ne_note_key|].
  split; [by eapply token_not_note_key|].
  assert (t ∈ word_tokens line ∨ t ∈ tag_tokens line →
          glob_match (get_word_key "*") t = true) as Hw.
  { rewrite glob_word_keys. unfold word_tokens, tag_tokens.
    rewrite !list_elem_of_fmap. by intros [(p & -> & _)|(p & -> & _)]. }
  assert (t ∈ temporal_tokens timestamp →
          glob_match (get_word_key "*") t = false) as Hd.
  { rewrite glob_word_keys. apply temporal_not_word_key. }
  apply elem_of_get_note_tokens in Ht as [_ Ht].
  split; split; try done.
  - intros Hg. destruct Ht as [?|[?|Htemp]]; auto.
    apply Hd in Htemp. congruence.
  - intros Hg. destruct Ht as [Hword|[Htag|?]]; [| |done].
    + rewrite Hw in Hg by auto. done.
    + rewrite Hw in Hg by auto. done.
Qed.

Lemma key_namespaces_disjoint_witness :
  (∀ m, "w_#errand" ≠ get_note_key m)
  ∧ glob_match (get_note_key "*") "w_#errand" = false.
Proof.
  destruct (key_namespaces_disjoint 100 "buy milk #errand" "w_#errand")
    as (H1 & H2 & _).
  - apply (bool_decide_unpack _). by vm_compute.
  - by split.
Defined.

(** * The shared connection *)

Lemma connections_reuse (configs : list Connection.config)
    (r : Connection.StrictRedis) :
  Forall (λ r', r' = r) (Connection.connections configs (Some r)).
Proof.
  induction configs as [|config configs IH]; simpl; [constructor|].
  by constructor.
Qed.

Lemma connections_length (configs : list Connection.config)
    (g : option Connection.StrictRedis) :
  length (Connection.connections configs g) = length configs.
Proof.
  revert g. induction configs as [|config configs IH]; intros g; [done|].
  simpl. destruct g; simpl; by rewrite IH.
Qed.

(** X21. The connection is created once: every call of
    [get_redis_connection] hands out the client built from the
    configuration that was in force at the first call, whatever the
    configuration is later. *)
Theorem connection_is_created_once (config : Connection.config)
    (configs : list Connection.config) :
  Forall
    (λ r, r = (Connection.get_redis_connection config None).1)
    (Connection.connections (config :: configs) None)
  ∧ length (Connection.connections (config :: configs) None)
    = S (length configs).
Proof.
  split; [|apply connections_length].
  simpl. constructor; [done|]. apply connections_reuse.
Qed.

(** * What a search hands back *)

(** X22. On a well-formed store without dangling postings a search returns
    either the single placeholder pair, when nothing is resolved, or pairs
    that each hold a timestamp and the text stored at it. *)
Theorem find_returns_stored_notes (db : redis) (request : search_request) :
  store_wf db → no_dangling db →
  ∃ notes, find_redis_notes request db = Ok notes db
    ∧ ((notes = [(None, None)] ∧ resolve db request = ∅)
       ∨ (notes ≠ [] ∧
          ∀ p, p ∈ notes →
            ∃ (ts : Z) (text : string),
              p = (Some ts, Some text) ∧ stored_note db ts = Some text)).
Proof.
  intros Hwf Hnd.
  pose proof (no_dangling_fetchable db request Hwf Hnd) as Hfetch.
  exists (resolved_notes db request). split.
  - by apply find_redis_notes_resolved.
  - unfold resolved_notes.
    destruct (sorted_timestamps db request) as [|t l] eqn:Hsorted.
    + left. split; [done|]. apply set_eq. intros m. split; [|set_solver].
      intros Hm. destruct (resolve_members _ _ _ Hwf Hm) as [ts ->].
      apply elem_of_sorted_timestamps in Hm; [|done].
      rewrite Hsorted in Hm. by apply elem_of_nil in Hm.
    + right. split; [done|]. intros [a x] Hp.
      apply (elem_of_zip_fmap Some (stored_note db)) in Hp as (ts & Hts & -> & ->).
      rewrite <-Hsorted in Hts. apply elem_of_sorted_timestamps in Hts; [|done].
      destruct (Hfetch ts Hts) as [text Htext]. exists ts, text.
      by rewrite Htext.
Qed.

Lemma find_returns_stored_notes_witness :
  ∃ notes,
    find_redis_notes {| inclusion_terms := ["code"]; exclusion_terms := ["buy"] |}
      (after scenario) = Ok notes (after scenario)
    ∧ ((notes = [(None, None)]
        ∧ resolve (after scenario)
            {| inclusion_terms := ["code"]; exclusion_terms := ["buy"] |} = ∅)
       ∨ (notes ≠ [] ∧
          ∀ p, p ∈ notes →
            ∃ (ts : Z) (text : string),
              p = (Some ts, Some text)
              ∧ stored_note (after scenario) ts = Some text)).
Proof.
  apply (find_returns_stored_notes (after scenario)).
  - apply sound_after.
  - apply consistent_no_dangling, consistent_after. by vm_compute.
Defined.

(** X23. A dangling posting makes the search raise: on a well-formed store,
    when a resolved timestamp has no note stored, [find_redis_notes] raises
    the [AttributeError] of decoding the missing text, rather than skipping
    the timestamp. *)
Theorem find_raises_on_dangling_posting (db : redis) (request : search_request)
    (ts : Z) :
  store_wf db → str ts ∈ resolve db request → stored_note db ts = None →
  find_redis_notes request db = Raise AttributeError.
Proof. apply find_redis_notes_unfetchable. Qed.

Lemma find_raises_on_dangling_posting_witness :
  find_redis_notes {| inclusion_terms := ["foo"]; exclusion_terms := [] |}
    (after [Save 1 "foo"; Save 1 "bar"; Delete 1; Save 2 "foo"])
  = Raise AttributeError.
Proof.
  apply (find_raises_on_dangling_posting _ _ 1).
  - apply sound_after.
  - apply resolve_single. apply (bool_decide_unpack _). by vm_compute.
  - by vm_compute.
Defined.
